(** * BargainB admin: orchestration and reconciliation engine

    A shallow embedding of the job orchestration, failure handling and
    reconciliation code of the BargainB admin repository, with the
    properties its specification states about them.

    Layout: the first part holds the model, one module per component,
    each definition naming the source function it embeds; the second part
    holds the lemmas and theorems, one section per component.

    Numbers: prices and similarity scores are Python numbers compared with
    [<=] and [>]; they are modelled as exact rationals ([Q]) and the
    comparisons are the ones written in the source.  Text is modelled as
    strings of ASCII code points: a property of a function that lower-cases,
    splits or measures text carries the hypothesis that the text is
    ASCII. *)

From Stdlib Require Import ZArith QArith Lia List Bool Ascii String.
From Stdlib Require Import Lqa.
From stdpp Require Import base tactics option list gmap strings.
From stdpp Require Import pretty sorting.

Local Open Scope string_scope.
Local Open Scope nat_scope.

(* ===================================================================== *)
(** ** Job Orchestrator *)
(* ===================================================================== *)

Module Orchestrator.

(** The sources hold the callers of the orchestrator only: [startAgent] of
    frontend/app/scrapers/page.tsx posts to [/api/agents/<id>/start], the
    FastAPI endpoint of docs/ARCHITECTURE.md forwards to
    [orchestrator.start_scraping], and the [scraping_jobs] table declares
    the job record.  The orchestrator itself is not among them. *)

Inductive JobKind := FullSync | IncrementalUpdate | ValidationOnly.

Inductive JobState := Idle | Queued | Running | Succeeded | Failed | PartiallyFailed.

Inductive StartError := ProviderUnknown | JobAlreadyRunning.

Inductive Outcome := AllCommitted | SomeExhausted | NoData.

Record Job := mkJob {
  job_provider : string;
  job_kind : JobKind;
  job_state : JobState
}.

(** Modelled from the spec: the orchestrator-owned state store (known
    providers, the bound of the pool, the job records in creation order; a
    job id is the position of its record). *)
Record State := mkState {
  providers : list string;
  pool_bound : nat;
  jobs : list Job
}.

Definition terminal (s : JobState) : bool :=
  match s with
  | Succeeded | Failed | PartiallyFailed => true
  | Idle | Queued | Running => false
  end.

Definition known (st : State) (p : string) : bool :=
  existsb (String.eqb p) (providers st).

Definition active_for (p : string) (j : Job) : bool :=
  String.eqb (job_provider j) p && negb (terminal (job_state j)).

(** Number of non-terminal jobs of provider [p]. *)
Definition active_count (p : string) (js : list Job) : nat :=
  length (List.filter (active_for p) js).

Definition has_active (st : State) (p : string) : bool :=
  existsb (active_for p) (jobs st).

Definition is_running (j : Job) : bool :=
  match job_state j with Running => true | _ => false end.

Definition running_count (js : list Job) : nat :=
  length (List.filter is_running js).

(** Modelled from the spec: [start(provider, jobKind)] of the control
    surface.  It runs under the orchestrator's mutex, so the check and the
    creation of the record are one step. *)
Definition start (st : State) (p : string) (k : JobKind)
  : State * (StartError + nat) :=
  if negb (known st p) then (st, inl ProviderUnknown)
  else if has_active st p then (st, inl JobAlreadyRunning)
  else (mkState (providers st) (pool_bound st) (jobs st ++ [mkJob p k Queued]),
        inr (length (jobs st))).

(** Replace the state of job [jid] when [guard] accepts its current state. *)
Definition move (guard : JobState -> bool) (target : JobState)
    (jid : nat) (js : list Job) : list Job :=
  match js !! jid with
  | Some j =>
      if guard (job_state j)
      then <[jid := mkJob (job_provider j) (job_kind j) target]> js
      else js
  | None => js
  end.

Definition is_queued (s : JobState) : bool :=
  match s with Queued => true | _ => false end.

Definition is_running_state (s : JobState) : bool :=
  match s with Running => true | _ => false end.

Definition outcome_state (o : Outcome) : JobState :=
  match o with
  | AllCommitted => Succeeded
  | SomeExhausted => PartiallyFailed
  | NoData => Failed
  end.

(** What can happen to the orchestrator.  Concurrent requests are handled
    one at a time under the mutex: an interleaving of concurrent requests
    is a sequence of events. *)
Inductive Event :=
| EvStart (p : string) (k : JobKind)     (* manual trigger *)
| EvDue (p : string)                     (* the schedule resolver marks p due *)
| EvAcquire (jid : nat)                  (* a pool slot is acquired *)
| EvFinish (jid : nat) (o : Outcome)     (* the run leaves Running *)
| EvStop (jid : nat) (partial : bool).   (* cooperative cancellation completes *)

(** Modelled from the spec: the transitions of section 4.2. *)
Definition step (st : State) (e : Event) : State :=
  match e with
  | EvStart p k => fst (start st p k)
  | EvDue p => fst (start st p IncrementalUpdate)
  | EvAcquire jid =>
      if running_count (jobs st) <? pool_bound st
      then mkState (providers st) (pool_bound st)
             (move is_queued Running jid (jobs st))
      else st
  | EvFinish jid o =>
      mkState (providers st) (pool_bound st)
        (move is_running_state (outcome_state o) jid (jobs st))
  | EvStop jid partial =>
      mkState (providers st) (pool_bound st)
        (move is_running_state (if partial then PartiallyFailed else Failed)
           jid (jobs st))
  end.

Definition init (ps : list string) (bound : nat) : State := mkState ps bound [].

Definition run (st : State) (es : list Event) : State := fold_left step es st.

(** Every job record belongs to a known provider. *)
Definition jobs_known (st : State) : Prop :=
  Forall (fun j => existsb (String.eqb (job_provider j)) (providers st) = true)
         (jobs st).

End Orchestrator.

(* ===================================================================== *)
(** ** Job monitor (frontend) *)
(* ===================================================================== *)

Module JobMonitor.

(** [interface ScrapingJob] of the job monitor component. *)
Inductive JobType := full_scrape | price_update | validation.

Inductive Status := pending | running | completed | failed | paused.

Inductive Action := pause | resume | stop | retry.

Record ScrapingJob := mkScrapingJob {
  id : string;
  store : string;
  type : JobType;
  status : Status;
  progress : Q;
  startTime : string;
  estimatedEnd : option string;
  productsProcessed : Z;
  productsTotal : Z;
  errorCount : Z
}.

Definition with_status (job : ScrapingJob) (s : Status) : ScrapingJob :=
  mkScrapingJob (id job) (store job) (type job) s (progress job)
    (startTime job) (estimatedEnd job) (productsProcessed job)
    (productsTotal job) (errorCount job).

(** [handleJobAction]: the update passed to [setJobs], applied to the
    previous list. *)
Definition handleJobAction (prev : list ScrapingJob) (jobId : string)
    (action : Action) : list ScrapingJob :=
  map (fun job =>
         if String.eqb (id job) jobId then
           match action with
           | pause => with_status job paused
           | resume => with_status job running
           | stop => with_status job failed
           | retry =>
               mkScrapingJob (id job) (store job) (type job) pending 0%Q
                 (startTime job) (estimatedEnd job) 0%Z
                 (productsTotal job) 0%Z
           end
         else job) prev.

(** The buttons the component renders for a job: pause and stop while it
    is running, resume while it is paused, retry once it has failed. *)
Definition offered (s : Status) (a : Action) : bool :=
  match s, a with
  | running, pause | running, stop => true
  | paused, resume => true
  | failed, retry => true
  | _, _ => false
  end.

(** The place of a status in the order pending, running, then the final
    states; [paused] is a second non-final state beside [running]. *)
Definition rank (s : Status) : nat :=
  match s with
  | pending => 1
  | running | paused => 2
  | completed | failed => 3
  end.

Definition terminal (s : Status) : bool :=
  match s with
  | completed | failed => true
  | pending | running | paused => false
  end.

(** Forward-only movement: an action the monitor offers for a job never
    lowers the rank of its status and never changes a final status. *)
Definition forward_only : Prop :=
  forall (job job' : ScrapingJob) (action : Action),
    offered (status job) action = true ->
    handleJobAction [job] (id job) action = [job'] ->
    rank (status job) <= rank (status job') /\
    (terminal (status job) = true -> status job' = status job).

Definition failed_job : ScrapingJob :=
  mkScrapingJob "job-1" "dirk" price_update failed 40%Q
    "2024-01-15T09:00:00Z" None 120%Z 300%Z 7%Z.

End JobMonitor.

(* ===================================================================== *)
(** ** Text *)
(* ===================================================================== *)

Module Text.

(** The text functions below are those of Python and JavaScript on ASCII
    code points.  From code point 128 on, [str.lower], [toLowerCase],
    [str.split] and the pattern [\s] follow the Unicode tables, which are
    not part of the model: the properties of text are stated for ASCII
    text, with [ascii_chars] or [ascii_text] as a hypothesis. *)
Definition is_ascii (c : ascii) : bool := nat_of_ascii c <? 128.

Definition ascii_chars (s : list ascii) : Prop :=
  Forall (fun c => is_ascii c = true) s.

Definition ascii_text (s : string) : Prop :=
  ascii_chars (list_ascii_of_string s).

(** [str.lower] on an ASCII code point: the letters A to Z are moved to
    a to z, the other ASCII code points are kept. *)
Definition lower_char (c : ascii) : ascii :=
  let n := nat_of_ascii c in
  if (65 <=? n) && (n <=? 90) then ascii_of_nat (n + 32) else c.

Definition is_upper (c : ascii) : bool :=
  let n := nat_of_ascii c in (65 <=? n) && (n <=? 90).

(** Whitespace of [str.split] and of the pattern [\s] among the ASCII
    code points: tab, line feed, vertical tab, form feed, carriage return,
    the separators 28 to 31 and the space. *)
Definition is_space (c : ascii) : bool :=
  let n := nat_of_ascii c in
  ((9 <=? n) && (n <=? 13)) || ((28 <=? n) && (n <=? 32)).

Definition space : ascii := " "%char.

Definition lower_chars (s : list ascii) : list ascii := map lower_char s.

Definition lower (s : string) : string :=
  string_of_list_ascii (lower_chars (list_ascii_of_string s)).

(** [needle in hay] on Python strings. *)
Fixpoint contains (needle hay : string) : bool :=
  String.prefix needle hay ||
  match hay with
  | EmptyString => false
  | String _ rest => contains needle rest
  end.

End Text.

(* ===================================================================== *)
(** ** Error recovery agent *)
(* ===================================================================== *)

Module ErrorRecovery.

(** A raised failure: the structured fields an adapter can attach (status
    code, exception category) and the message.  [str(error)] is the
    message. *)
Record Failure := mkFailure {
  status_code : option Z;
  exception_category : string;
  message : string
}.

Definition str (error : Failure) : string := message error.

Record ErrorState := mkErrorState {
  error : Failure;
  error_type : option string
}.

(** [ErrorRecoveryAgent.classify_error]. *)
Definition classify_error (state : ErrorState) : ErrorState :=
  let error := error state in
  let kind :=
    if Text.contains "network" (Text.lower (str error))
       || Text.contains "timeout" (Text.lower (str error))
    then "network_error"
    else if Text.contains "rate limit" (Text.lower (str error))
            || Text.contains "429" (str error)
    then "rate_limit"
    else if Text.contains "parsing" (Text.lower (str error))
            || Text.contains "html" (Text.lower (str error))
    then "parsing_error"
    else if Text.contains "database" (Text.lower (str error))
            || Text.contains "connection" (Text.lower (str error))
    then "database_error"
    else "unknown" in
  mkErrorState error (Some kind).

(** The kind assigned to a failure. *)
Definition kind_of (e : Failure) : option string :=
  error_type (classify_error (mkErrorState e None)).

(** Classification by the structured fields alone: failures that agree
    on status code and exception category get the same kind. *)
Definition metadata_only : Prop :=
  forall e1 e2 : Failure,
    status_code e1 = status_code e2 ->
    exception_category e1 = exception_category e2 ->
    kind_of e1 = kind_of e2.

(** Two failures with the same structured fields and different messages. *)
Definition failure_a : Failure :=
  mkFailure (Some 503%Z) "HTTPError" "Network is unreachable".

Definition failure_b : Failure :=
  mkFailure (Some 503%Z) "HTTPError" "Service Unavailable".

End ErrorRecovery.

(* ===================================================================== *)
(** ** Retry with backoff *)
(* ===================================================================== *)

Module Retry.

(** What one call of [func] does. *)
Inductive Outcome (A : Type) :=
| Returns (v : A)
| RateLimitError
| OtherError (msg : string).
Arguments Returns {A} v.
Arguments RateLimitError {A}.
Arguments OtherError {A} msg.

(** How [retry_with_backoff] ends: it returns a value, lets an exception
    of [func] through, or raises [Exception(msg)] itself. *)
Inductive Result (A : Type) :=
| Ok (v : A)
| Propagated (msg : string)
| Exception (msg : string).
Arguments Ok {A} v.
Arguments Propagated {A} msg.
Arguments Exception {A} msg.

(** [wait_time = (2 ** attempt) + random.uniform(0, 1)]; [jitter] is the
    value drawn. *)
Definition wait_time (attempt : nat) (jitter : Q) : Q :=
  (inject_Z (2 ^ Z.of_nat attempt) + jitter)%Q.

(** The body of [for attempt in range(max_retries)], over the attempts
    that remain.  [func k] is the outcome of the call made at attempt [k],
    [draw k] the jitter drawn there, [slept] the waits passed to
    [asyncio.sleep] so far. *)
Fixpoint attempts {A} (func : nat -> Outcome A) (draw : nat -> Q)
    (remaining : list nat) (slept : list Q) : Result A * list Q :=
  match remaining with
  | [] => (Exception "Max retries exceeded", slept)
  | attempt :: rest =>
      match func attempt with
      | Returns v => (Ok v, slept)
      | RateLimitError =>
          attempts func draw rest (slept ++ [wait_time attempt (draw attempt)])%list
      | OtherError msg => (Propagated msg, slept)
      end
  end.

(** [retry_with_backoff(func, max_retries=3)]. *)
Definition retry_with_backoff {A} (func : nat -> Outcome A) (draw : nat -> Q)
    (max_retries : nat) : Result A * list Q :=
  attempts func draw (seq 0 max_retries) [].

Definition default_max_retries : nat := 3.

(** Number of calls of [func] a run made: one per wait, and the last one
    when it did not end in a wait. *)
Definition calls {A} (r : Result A * list Q) : nat :=
  match fst r with
  | Exception _ => length (snd r)
  | _ => S (length (snd r))
  end.

(** The waits of the first [k] attempts. *)
Definition waits (draw : nat -> Q) (k : nat) : list Q :=
  map (fun attempt => wait_time attempt (draw attempt)) (seq 0 k).

(** Rate-limited attempts that do not use up [max_retries]: some run
    gets an answer after [max_retries] rate-limited calls. *)
Definition rate_limits_uncounted : Prop :=
  exists (func : nat -> Outcome string) (draw : nat -> Q) (max_retries : nat)
         (v : string),
    (forall i, i < max_retries -> func i = RateLimitError) /\
    (retry_with_backoff func draw max_retries).1 = Ok v.

(** A wait that is a fixed cooldown: the same at every attempt. *)
Definition fixed_cooldown : Prop :=
  forall (attempt attempt' : nat) (jitter : Q),
    (wait_time attempt jitter == wait_time attempt' jitter)%Q.

(** A source that is rate limited three times and then answers. *)
Definition limited_thrice (k : nat) : Outcome string :=
  if k <? 3 then RateLimitError else Returns "page".

End Retry.

(* ===================================================================== *)
(** ** Python values shared by the pipeline *)
(* ===================================================================== *)

Module Py.

Inductive exn :=
| KeyError (key : string)
| DatabaseError (msg : string).

(** [str(e)]: a [KeyError] prints its key between quotes. *)
Definition str (e : exn) : string :=
  match e with
  | KeyError key => "'" ++ key ++ "'"
  | DatabaseError msg => msg
  end.

Inductive result (A : Type) :=
| Ok (a : A)
| Raise (e : exn).
Arguments Ok {A} a.
Arguments Raise {A} e.

Definition bind {A B} (r : result A) (k : A -> result B) : result B :=
  match r with
  | Ok a => k a
  | Raise e => Raise e
  end.

(** [d[key]] on a key that may be absent. *)
Definition item {A} (key : string) (field : option A) : result A :=
  match field with
  | Some v => Ok v
  | None => Raise (KeyError key)
  end.

(** [x > y] and [x <= y] on numbers. *)
Definition gt (x y : Q) : bool := negb (Qle_bool x y).
Definition le (x y : Q) : bool := Qle_bool x y.

(** [enumerate(l, start)]. *)
Fixpoint enumerate {A} (l : list A) (start : nat) : list (nat * A) :=
  match l with
  | [] => []
  | x :: rest => (start, x) :: enumerate rest (S start)
  end.

End Py.

(** [x ← r; k] runs [r] and, unless it raised, goes on with [k]. *)
#[global] Instance result_bind : MBind Py.result :=
  fun A B k r => Py.bind r k.

(** A product as the agents pass it around: a dict; a key that can be
    absent is an [option].  A key that is present holds a value of its
    type (a price that is present is a number), and every product has its
    [id]. *)
Record Product := mkProduct {
  id : string;
  name : option string;
  brand : option string;
  category : option string;
  price : option Q;
  store_product_id : option string;
  original_price : option Q;
  discount_percentage : option Q;
  is_promotion : option bool;
  promotion_text : option string;
  scraped_at : option Z;
  normalized_name : option string;
  name_tokens : option (list string)
}.

(* ===================================================================== *)
(** ** Data quality helpers *)
(* ===================================================================== *)

Module DataQuality.

(** [validate_product_data].  [len] counts code points, [String.length]
    the characters of the ASCII name. *)
Definition validate_product_data (product : Product) : list string :=
  let errors : list string := [] in
  let errors :=
    if match name product with
       | None | Some EmptyString => true
       | Some n => String.length n <? 3
       end
    then (errors ++ ["Product name too short"])%list else errors in
  let errors :=
    if Py.le (default 0%Q (price product)) 0%Q
    then (errors ++ ["Invalid price"])%list else errors in
  let errors :=
    if match category product with
       | None | Some EmptyString => true
       | Some _ => false
       end
    then (errors ++ ["Missing category"])%list else errors in
  errors.

(** [name.split()]: the maximal runs of characters that are not
    whitespace.  [word] holds the run being read, last character first. *)
Fixpoint split_from (word : list ascii) (s : list ascii) : list (list ascii) :=
  match s with
  | [] => match word with [] => [] | _ => [rev word] end
  | c :: rest =>
      if Text.is_space c
      then match word with
           | [] => split_from [] rest
           | _ => rev word :: split_from [] rest
           end
      else split_from (c :: word) rest
  end.

Definition split (s : list ascii) : list (list ascii) := split_from [] s.

(** [' '.join(words)]. *)
Fixpoint join (words : list (list ascii)) : list ascii :=
  match words with
  | [] => []
  | [w] => w
  | w :: rest => (w ++ Text.space :: join rest)%list
  end.

(** [s] without the literal [p] at its front, when it starts with it. *)
Fixpoint strip_literal (p s : list ascii) : option (list ascii) :=
  match p, s with
  | [], _ => Some s
  | a :: p', b :: s' => if Ascii.eqb a b then strip_literal p' s' else None
  | _ :: _, [] => None
  end.

Fixpoint drop_spaces (s : list ascii) : list ascii :=
  match s with
  | c :: rest => if Text.is_space c then drop_spaces rest else s
  | [] => []
  end.

(** One alternative of the pattern: the literal, then [\s+]. *)
Definition match_prefix (p s : list ascii) : option (list ascii) :=
  match strip_literal p s with
  | Some (c :: rest) =>
      if Text.is_space c then Some (drop_spaces rest) else None
  | _ => None
  end.

Definition prefixes : list (list ascii) :=
  map list_ascii_of_string ["ah"; "jumbo"; "dirk"].

(** [re.sub(r'^(ah|jumbo|dirk)\s+', '', s)]: the pattern is anchored, so
    at most one match, at the front; the alternatives are tried in order. *)
Fixpoint sub_prefix (alts : list (list ascii)) (s : list ascii) : list ascii :=
  match alts with
  | [] => s
  | p :: others =>
      match match_prefix p s with
      | Some rest => rest
      | None => sub_prefix others s
      end
  end.

Definition normalize_chars (name : list ascii) : list ascii :=
  let normalized := Text.lower_chars (join (split name)) in
  sub_prefix prefixes normalized.

(** [normalize_product_name]. *)
Definition normalize_product_name (name : string) : string :=
  string_of_list_ascii (normalize_chars (list_ascii_of_string name)).

(** The stores seeded by the migrations, as (name, slug). *)
Definition stores : list (string * string) :=
  [("Albert Heijn", "albert_heijn"); ("Dirk", "dirk");
   ("Hoogvliet", "hoogvliet"); ("Jumbo", "jumbo");
   ("Kruidvat", "kruidvat"); ("Etos", "etos")].

(** A string is tidy from a position when, from there on, every
    whitespace character is a space that follows a character that is not
    a space, and the string does not end in a space.  [after_space] tells
    whether the position follows a space (or is the front). *)
Fixpoint tidy_from (after_space : bool) (s : list ascii) : bool :=
  match s with
  | [] => negb after_space
  | c :: rest =>
      if Text.is_space c
      then Ascii.eqb c Text.space && negb after_space && tidy_from true rest
      else tidy_from false rest
  end.

Definition tidy (s : list ascii) : bool :=
  match s with
  | [] => true
  | _ => tidy_from true s
  end.



End DataQuality.

(* ===================================================================== *)
(** ** Product standardization agent *)
(* ===================================================================== *)

Module ProductStandardization.

Record ProcessingState := mkProcessingState {
  raw_products : list Product;
  processed_products : list Product;
  duplicates : list (string * string * Q * string)
}.

(** An entry of [state["duplicates"]]:
    [product1_id], [product2_id], [similarity], [merge_strategy]. *)
Definition product1_id (d : string * string * Q * string) : string := d.1.1.1.
Definition product2_id (d : string * string * Q * string) : string := d.1.1.2.
Definition similarity (d : string * string * Q * string) : Q := d.1.2.
Definition merge_strategy (d : string * string * Q * string) : string := d.2.

(** The threshold of duplicate detection. *)
Definition threshold : Q := 0.85%Q.

(** The products of a state are dicts, and a list of products holds
    references to them: [normalize_names] changes the dicts of
    [raw_products] where they are and puts the same dicts into
    [processed_products].  [objects] is the dict behind each reference;
    the three other fields are the keys of the state. *)
Record Memory := mkMemory {
  objects : nat -> Product;
  raw_refs : list nat;
  processed_refs : list nat;
  found : list (string * string * Q * string)
}.

(** The state as a function that only reads it sees it. *)
Definition view (state : Memory) : ProcessingState :=
  mkProcessingState (map (objects state) (raw_refs state))
    (map (objects state) (processed_refs state)) (found state).

Section agent.

(** The name normalizer and the two methods whose bodies the design leaves
    open. *)
Variable normalize : string -> string.
Variable tokenize : string -> list string.
Variable calculate_similarity : Product -> Product -> Q.
Variable determine_merge_strategy : Product -> Product -> string.

Definition with_names (product : Product) (normalized : string)
    (tokens : list string) : Product :=
  mkProduct (id product) (name product) (brand product) (category product)
    (price product) (store_product_id product) (original_price product)
    (discount_percentage product) (is_promotion product)
    (promotion_text product) (scraped_at product)
    (Some normalized) (Some tokens).

(** [product["normalized_name"] = ...] and [product["name_tokens"] = ...]
    on the dict behind [ref]: the dict is changed where it is, so every
    list that holds [ref] sees the two keys. *)
Definition set_names (objects : nat -> Product) (ref : nat)
    (normalized : string) (tokens : list string) : nat -> Product :=
  fun r => if Nat.eqb r ref
           then with_names (objects ref) normalized tokens
           else objects r.

(** The loop of [normalize_names], over the references of
    [state["raw_products"]]: [product["name"]] raises on a product without
    a name, and what the loop wrote before stays written.
    [normalized_products] is the list built so far. *)
Fixpoint normalize_each (refs : list nat) (objects : nat -> Product)
    (normalized_products : list nat)
  : (nat -> Product) * Py.result (list nat) :=
  match refs with
  | [] => (objects, Py.Ok normalized_products)
  | ref :: rest =>
      match Py.item "name" (name (objects ref)) with
      | Py.Raise e => (objects, Py.Raise e)
      | Py.Ok n =>
          let normalized_name := normalize n in
          let objects :=
            set_names objects ref normalized_name (tokenize normalized_name) in
          normalize_each rest objects (normalized_products ++ [ref])%list
      end
  end.

(** [normalize_names]: the state after the call and the exception that
    left it, if one did.  [state["processed_products"]] is assigned after
    the loop only. *)
Definition normalize_names (state : Memory) : Memory * option Py.exn :=
  match normalize_each (raw_refs state) (objects state) [] with
  | (objects', Py.Ok normalized_products) =>
      (mkMemory objects' (raw_refs state) normalized_products (found state),
       None)
  | (objects', Py.Raise e) =>
      (mkMemory objects' (raw_refs state) (processed_refs state) (found state),
       Some e)
  end.

(** The iterations of the two loops of [detect_duplicates], in order:
    [for i, product1 in enumerate(products)] and, inside,
    [for j, product2 in enumerate(products[i+1:], i+1)]. *)
Definition pairs (products : list Product)
  : list ((nat * Product) * (nat * Product)) :=
  flat_map
    (fun ip : nat * Product =>
       map (fun jp => (ip, jp))
           (Py.enumerate (drop (ip.1 + 1) products) (ip.1 + 1)))
    (Py.enumerate products 0).

(** The body of the inner loop. *)
Definition compare (e : (nat * Product) * (nat * Product))
  : list (string * string * Q * string) :=
  let product1 := e.1.2 in
  let product2 := e.2.2 in
  let similarity := calculate_similarity product1 product2 in
  if Py.gt similarity threshold
  then [(id product1, id product2, similarity,
         determine_merge_strategy product1 product2)]
  else [].

(** [detect_duplicates]. *)
Definition detect_duplicates (state : ProcessingState) : ProcessingState :=
  let products := processed_products state in
  mkProcessingState (raw_products state) products
    (flat_map compare (pairs products)).

End agent.

(** The positions compared by a pass. *)
Definition positions (e : (nat * Product) * (nat * Product)) : nat * nat :=
  (e.1.1, e.2.1).

(** The entry recorded for a compared pair, and the ids it names. *)
Definition candidate (calculate_similarity : Product -> Product -> Q)
    (determine_merge_strategy : Product -> Product -> string)
    (product1 product2 : Product) : string * string * Q * string :=
  (id product1, id product2, calculate_similarity product1 product2,
   determine_merge_strategy product1 product2).

Definition ids (d : string * string * Q * string) : string * string :=
  (product1_id d, product2_id d).

(** The recorded list holds no pair of an id with itself and no pair of
    ids twice, whatever the batch. *)
Definition no_self_or_repeated_pair : Prop :=
  forall (calculate_similarity : Product -> Product -> Q)
         (determine_merge_strategy : Product -> Product -> string)
         (state : ProcessingState),
    let found := duplicates (detect_duplicates calculate_similarity
                               determine_merge_strategy state) in
    NoDup (map ids found) /\
    forall a b : string, In (a, b) (map ids found) -> a <> b.

(** A pair is recorded as soon as its score reaches the threshold. *)
Definition at_or_above : Prop :=
  forall (calculate_similarity : Product -> Product -> Q)
         (determine_merge_strategy : Product -> Product -> string)
         (state : ProcessingState) (i j : nat) (product1 product2 : Product),
    i < j ->
    processed_products state !! i = Some product1 ->
    processed_products state !! j = Some product2 ->
    (threshold <= calculate_similarity product1 product2)%Q ->
    In (candidate calculate_similarity determine_merge_strategy product1 product2)
       (duplicates (detect_duplicates calculate_similarity
                      determine_merge_strategy state)).

Definition bare (i : string) (n : string) : Product :=
  mkProduct i (Some n) None None None None None None None None None None None.

(** Three raw products, the second one without a name. *)
Definition shelf : Memory :=
  mkMemory
    (fun ref =>
       match ref with
       | 0 => bare "p-1" "AH Melk"
       | 1 => mkProduct "p-2" None None None None None None None None None
                None None None
       | _ => bare "p-3" "Jumbo Brood"
       end)
    [0; 1; 2] [] [].

End ProductStandardization.

(* ===================================================================== *)
(** ** Price validation agent *)
(* ===================================================================== *)

Module PriceValidation.

Record ValidationResult := mkValidationResult {
  valid : bool;
  errors : list string
}.

(** An entry of [state["outliers"]]. *)
Record Outlier := mkOutlier {
  product_id : string;
  current_price : Q;
  expected_range : Q * Q;
  confidence : Q
}.

Record ValidationState := mkValidationState {
  scraped_products : list Product;
  validated_products : list Product;
  validation_errors : list (string * list string);
  outliers : list Outlier
}.

(** The outlier detector and the price history manager are used through
    these methods only; their classes are not part of the sources.
    [get_confidence] reports on the last detection, so it is a function of
    the arguments of that call. *)
Record OutlierDetector := mkOutlierDetector {
  detect : Q -> list Q -> bool;
  get_expected_range : list Q -> Q * Q;
  get_confidence : Q -> list Q -> Q
}.

Section agent.

Variable validate_single_price : Product -> ValidationResult.
Variable get_prices : string -> list Q.
Variable outlier_detector : OutlierDetector.

(** The loop of [validate_prices]. *)
Fixpoint validate_each (products : list Product)
  : list Product * list (string * list string) :=
  match products with
  | [] => ([], [])
  | product :: rest =>
      let validation_result := validate_single_price product in
      let '(validated, failures) := validate_each rest in
      if valid validation_result
      then (product :: validated, failures)
      else (validated, (id product, errors validation_result) :: failures)
  end.

(** [validate_prices]. *)
Definition validate_prices (state : ValidationState) : ValidationState :=
  let '(validated, failures) := validate_each (scraped_products state) in
  mkValidationState (scraped_products state) validated failures
    (outliers state).

(** The loop of [detect_outliers]; [product["price"]] is read only when the
    history is long enough. *)
Fixpoint outliers_of (products : list Product) : Py.result (list Outlier) :=
  match products with
  | [] => Py.Ok []
  | product :: rest =>
      let historical_prices := get_prices (id product) in
      if 10 <? length historical_prices then
        p ← Py.item "price" (price product);
        let is_outlier := detect outlier_detector p historical_prices in
        others ← outliers_of rest;
        if is_outlier
        then Py.Ok (mkOutlier (id product) p
                      (get_expected_range outlier_detector historical_prices)
                      (get_confidence outlier_detector p historical_prices)
                    :: others)
        else Py.Ok others
      else outliers_of rest
  end.

(** [detect_outliers]. *)
Definition detect_outliers (state : ValidationState) : Py.result ValidationState :=
  found ← outliers_of (validated_products state);
  Py.Ok (mkValidationState (scraped_products state) (validated_products state)
           (validation_errors state) found).

End agent.

(** A detector that flags a price outside the range its history spans,
    with full confidence. *)
Definition lowest (x y : Q) : Q := if Py.le x y then x else y.
Definition highest (x y : Q) : Q := if Py.le x y then y else x.

Definition span (prices : list Q) : Q * Q :=
  (fold_right lowest (hd 0%Q prices) prices,
   fold_right highest (hd 0%Q prices) prices).

Definition span_detector : OutlierDetector :=
  mkOutlierDetector
    (fun p prices => Py.gt (span prices).1 p || Py.gt p (span prices).2)
    span
    (fun _ _ => 1%Q).

Definition priced (i : string) (p : Q) : Product :=
  mkProduct i (Some "melk 1l") None (Some "dairy") (Some p) (Some i)
    None None None None (Some 1705309200%Z) None None.

(** The entry [detect_outliers] adds for a flagged product. *)
Definition entry (get_prices : string -> list Q) (d : OutlierDetector)
    (product : Product) (p : Q) : Outlier :=
  mkOutlier (id product) p (get_expected_range d (get_prices (id product)))
    (get_confidence d p (get_prices (id product))).

(** A flag on ten points of history: some product with exactly ten prior
    prices ends up among the outliers. *)
Definition flagged_at_ten : Prop :=
  exists (get_prices : string -> list Q) (d : OutlierDetector)
         (product : Product) (found : list Outlier),
    length (get_prices (id product)) = 10 /\
    outliers_of get_prices d [product] = Py.Ok found /\
    found <> [].

Definition ten_prices : list Q := repeat 16.75%Q 10.

End PriceValidation.

(* ===================================================================== *)
(** ** Database operations agent *)
(* ===================================================================== *)

Module DatabaseOperations.

(** A row of [current_prices]; the generated [id] is left out. *)
Record CurrentPrice := mkCurrentPrice {
  cp_store_product_id : string;
  cp_price : Q;
  cp_original_price : option Q;
  cp_discount_percentage : option Q;
  cp_is_promotion : bool;
  cp_promotion_text : option string;
  cp_last_updated : Z
}.

(** A row of [price_history]; the generated [id] is the position of the
    row, [created_at] is left out. *)
Record PriceHistory := mkPriceHistory {
  ph_store_product_id : string;
  ph_price : Q;
  ph_original_price : option Q;
  ph_discount_percentage : option Q;
  ph_is_promotion : bool;
  ph_promotion_text : option string;
  ph_scraped_at : Z
}.

(** The two price tables.  [current_prices] has [UNIQUE(store_product_id)]:
    a map from that key.  [price_history] has no key besides its generated
    id: a list of rows.  A [store_product_id] stands for one
    (product, store) pair, [store_products] being [UNIQUE(store_id,
    product_id)].  The reference to [store_products] and the rounding of
    [DECIMAL(10,2)] are not part of the model. *)
Record Store := mkStore {
  current_prices : gmap string CurrentPrice;
  price_history : list PriceHistory
}.

Record DatabaseState := mkDatabaseState {
  validated_products : list Product;
  products_processed : nat;
  prices_updated : option nat;
  database_errors : list string
}.

Fixpoint distinct (keys : list string) : bool :=
  match keys with
  | [] => true
  | k :: rest => negb (existsb (String.eqb k) rest) && distinct rest
  end.

(** Writing one row under its key: it replaces the row of that key or is
    added. *)
Definition put (table : gmap string CurrentPrice) (row : CurrentPrice)
  : gmap string CurrentPrice :=
  <[cp_store_product_id row := row]> table.

(** The Supabase client.  The database can decline a statement for
    reasons that lie outside the two tables (the connection, the reference
    to [store_products], a value that does not fit its column): the client
    tells, for the rows of a statement, whether it is declined and with
    what message.  [execute()] then raises. *)
Record Client := mkClient {
  upsert_declined : list CurrentPrice -> option string;
  insert_declined : list PriceHistory -> option string
}.

(** A client whose statements all go through. *)
Definition accepting : Client := mkClient (fun _ => None) (fun _ => None).

(** [table("current_prices").upsert(rows, on_conflict="store_product_id")]:
    one [INSERT ... ON CONFLICT (store_product_id) DO UPDATE].  A row whose
    key is present replaces that row, another one is added; the statement
    fails as a whole when two of its rows have the same key. *)
Definition upsert (client : Client) (rows : list CurrentPrice)
    (table : gmap string CurrentPrice) : Py.result (gmap string CurrentPrice) :=
  match upsert_declined client rows with
  | Some msg => Py.Raise (Py.DatabaseError msg)
  | None =>
      if distinct (map cp_store_product_id rows)
      then Py.Ok (fold_left put rows table)
      else Py.Raise (Py.DatabaseError
             "ON CONFLICT DO UPDATE command cannot affect row a second time")
  end.

(** [table("price_history").insert(rows)]: the rows are added, unless the
    statement is declined. *)
Definition insert_rows (client : Client) (rows : list PriceHistory)
    (table : list PriceHistory) : Py.result (list PriceHistory) :=
  match insert_declined client rows with
  | Some msg => Py.Raise (Py.DatabaseError msg)
  | None => Py.Ok (table ++ rows)%list
  end.

(** The loop of [update_prices] that builds the two row lists; [now k] is
    what [datetime.now()] reads at the [k]-th product. *)
Fixpoint build_rows (now : nat -> Z) (k : nat) (products : list Product)
  : Py.result (list CurrentPrice * list PriceHistory) :=
  match products with
  | [] => Py.Ok ([], [])
  | product :: rest =>
      spid ← Py.item "store_product_id" (store_product_id product);
      p ← Py.item "price" (price product);
      let current :=
        mkCurrentPrice spid p (original_price product)
          (discount_percentage product) (default false (is_promotion product))
          (promotion_text product) (now k) in
      at_ ← Py.item "scraped_at" (scraped_at product);
      let history :=
        mkPriceHistory spid p (original_price product)
          (discount_percentage product) (default false (is_promotion product))
          (promotion_text product) at_ in
      others ← build_rows now (S k) rest;
      Py.Ok (current :: others.1, history :: others.2)
  end.

Definition failed (state : DatabaseState) (e : Py.exn) : DatabaseState :=
  mkDatabaseState (validated_products state) (products_processed state)
    (prices_updated state) (database_errors state ++ [Py.str e]).

(** [update_prices]: the rows are built, [current_prices] is upserted,
    then [price_history] is inserted into, as two statements of their own;
    an exception at any point ends the [try] block and is recorded in
    [database_errors].  What a statement wrote before the exception stays
    written. *)
Definition update_prices (client : Client) (now : nat -> Z) (db : Store)
    (state : DatabaseState) : Store * DatabaseState :=
  match build_rows now 0 (validated_products state) with
  | Py.Raise e => (db, failed state e)
  | Py.Ok (current, history) =>
      match upsert client current (current_prices db) with
      | Py.Raise e => (db, failed state e)
      | Py.Ok table =>
          match insert_rows client history (price_history db) with
          | Py.Raise e => (mkStore table (price_history db), failed state e)
          | Py.Ok rows =>
              (mkStore table rows,
               mkDatabaseState (validated_products state)
                 (products_processed state) (Some (length current))
                 (database_errors state))
          end
      end
  end.

(** Applying the writes of a batch: [update_prices] on the store. *)
Definition apply_batch (client : Client) (now : nat -> Z) (batch : list Product)
    (db : Store) : Store :=
  (update_prices client now db (mkDatabaseState batch 0 None [])).1.

Definition empty_store : Store := mkStore ∅ [].

(** Applying a batch a second time changes nothing. *)
Definition idempotent : Prop :=
  forall (client : Client) (now : nat -> Z) (batch : list Product) (db : Store),
    apply_batch client now batch (apply_batch client now batch db)
    = apply_batch client now batch db.


End DatabaseOperations.

(* ===================================================================== *)
(** ** Toast store (frontend) *)
(* ===================================================================== *)

Module ToastStore.

Inductive Variant := default_variant | destructive.

(** [interface ToastOptions]; an absent field is [None].  [duration] is in
    milliseconds. *)
Record ToastOptions := mkToastOptions {
  title : option string;
  description : option string;
  variant : option Variant;
  duration : option Z
}.

(** [interface Toast]: the options and the id. *)
Record Toast := mkToast {
  options : ToastOptions;
  id : string
}.

(** The module-level variables [toastCounter], [listeners] and [toasts],
    with what surrounds them: the state each component that uses the hook
    holds ([toastState], by component), and the timers [setTimeout] has
    pending (delay and id to remove).  A listener is the state setter of a
    component and is named by that component. *)
Record Store := mkStore {
  toastCounter : nat;
  toasts : list Toast;
  listeners : gset nat;
  components : gmap nat (list Toast);
  timers : list (Z * string)
}.

Definition init : Store := mkStore 0 [] ∅ ∅ [].

(** [listeners.forEach(listener => listener(toasts))]. *)
Definition notify (ls : gset nat) (ts : list Toast)
    (cs : gmap nat (list Toast)) : gmap nat (list Toast) :=
  map_imap (fun c shown => Some (if decide (c ∈ ls) then ts else shown)) cs.

(** [options.duration || 5000]: an absent or zero duration gives 5000. *)
Definition duration_or_default (o : ToastOptions) : Z :=
  match duration o with
  | Some d => if (d =? 0)%Z then 5000%Z else d
  | None => 5000%Z
  end.

(** [addToast]; the id is returned. *)
Definition addToast (st : Store) (o : ToastOptions) : Store * string :=
  let counter := S (toastCounter st) in
  let id := "toast-" +:+ pretty counter in
  let toast := mkToast o id in
  let toasts := (toasts st ++ [toast])%list in
  (mkStore counter toasts (listeners st)
     (notify (listeners st) toasts (components st))
     (timers st ++ [(duration_or_default o, id)])%list,
   id).

(** [removeToast]. *)
Definition removeToast (st : Store) (i : string) : Store :=
  let toasts := List.filter (fun toast => negb (String.eqb (id toast) i))
                  (toasts st) in
  mkStore (toastCounter st) toasts (listeners st)
    (notify (listeners st) toasts (components st)) (timers st).

Definition with_variant (o : ToastOptions) (v : Variant) : ToastOptions :=
  mkToastOptions (title o) (description o) (Some v) (duration o).

(** The [success], [error] and [info] entries of the hook. *)
Definition success (st : Store) (o : ToastOptions) : Store * string :=
  addToast st (with_variant o default_variant).
Definition error (st : Store) (o : ToastOptions) : Store * string :=
  addToast st (with_variant o destructive).
Definition info (st : Store) (o : ToastOptions) : Store * string :=
  addToast st (with_variant o default_variant).

(** A component that calls [useToast] mounts: its state starts as the
    empty list and its setter is added to the listeners. *)
Definition mount (st : Store) (c : nat) : Store :=
  mkStore (toastCounter st) (toasts st) ({[c]} ∪ listeners st)
    (<[c := []]> (components st)) (timers st).

(** It unmounts: the cleanup of the effect deletes the setter. *)
Definition unmount (st : Store) (c : nat) : Store :=
  mkStore (toastCounter st) (toasts st) (listeners st ∖ {[c]})
    (delete c (components st)) (timers st).

(** The [k]-th pending timer fires: it calls [removeToast] with its id. *)
Definition fire (st : Store) (k : nat) : Store :=
  match timers st !! k with
  | Some (_, i) =>
      let st' := removeToast st i in
      mkStore (toastCounter st') (toasts st') (listeners st')
        (components st') (delete k (timers st))
  | None => st
  end.

Inductive Event :=
| Add (o : ToastOptions)
| Success (o : ToastOptions)
| Error (o : ToastOptions)
| Info (o : ToastOptions)
| Remove (i : string)
| Fire (k : nat)
| Mount (c : nat)
| Unmount (c : nat).

Definition step (st : Store) (e : Event) : Store :=
  match e with
  | Add o => (addToast st o).1
  | Success o => (success st o).1
  | Error o => (error st o).1
  | Info o => (info st o).1
  | Remove i => removeToast st i
  | Fire k => fire st k
  | Mount c => mount st c
  | Unmount c => unmount st c
  end.

Definition run (st : Store) (es : list Event) : Store := fold_left step es st.

(** The ids are those of the counter, each given out once. *)
Definition ids_ok (st : Store) : Prop :=
  NoDup (id <$> toasts st) /\
  forall toast, toast ∈ toasts st ->
    exists k, 1 <= k <= toastCounter st /\ id toast = "toast-" +:+ pretty k.

(** Every listening component shows the current toasts, or nothing yet. *)
Definition listeners_ok (st : Store) : Prop :=
  forall c, c ∈ listeners st ->
    components st !! c = Some (toasts st) \/ components st !! c = Some [].

End ToastStore.

(* ===================================================================== *)
(** ** Batches *)
(* ===================================================================== *)

Module Batching.

(** What iterating [process_products_in_batches] gives: the batches it
    yields, or the [ValueError] of [range]. *)
Inductive Outcome (A : Type) :=
| Yields (batches : list (list A))
| ValueError (msg : string).
Arguments Yields {A} batches.
Arguments ValueError {A} msg.

(** [range(0, stop, step)] for a positive [step]:
    0, step, 2 * step, ... below [stop]. *)
Definition starts (stop step : nat) : list nat :=
  map (fun k => k * step) (seq 0 ((stop + step - 1) / step)).

(** [process_products_in_batches(products, batch_size=100)], and the loop
    [for i in range(0, len(products), batch_size):
     batch = products[i:i + batch_size]] of [upsert_products].  A step of 0
    makes [range] raise; a negative step gives an empty range. *)
Definition process_products_in_batches {A} (products : list A)
    (batch_size : Z) : Outcome A :=
  if (batch_size =? 0)%Z then ValueError "range() arg 3 must not be zero"
  else if (batch_size <? 0)%Z then Yields []
  else
    let step := Z.to_nat batch_size in
    Yields (map (fun i => take step (drop i products))
                (starts (length products) step)).

Definition default_batch_size : Z := 100.

End Batching.

(* ===================================================================== *)
(** ** Database operations agent: products *)
(* ===================================================================== *)

Module ProductUpsert.

(** A validated product as [upsert_products] reads it; an absent key is
    [None]. *)
Record Item := mkItem {
  name : option string;
  normalized_name : option string;
  brand : option string;
  barcode : option string;
  unit : option string;
  image_url : option string
}.

(** An element of [upsert_data].  [product.get(...)] gives [None] for an
    absent key. *)
Record Row := mkRow {
  r_name : string;
  r_normalized_name : string;
  r_brand : string;
  r_barcode : option string;
  r_unit_type : option string;
  r_image_url : option string;
  r_updated_at : Z
}.



Section client.

(** The products table is reached through the client only.  [rejects rows]
    is the message of the exception the upsert of [rows] raises, if it
    raises; the table is seen as the list of the upserts that went
    through. *)
Variable rejects : list Row -> option string.

(** [table("products").upsert(upsert_data,
    on_conflict="normalized_name,brand").execute()]. *)
Definition upsert (rows : list Row) (sent : list (list Row))
  : Py.result (list (list Row)) :=
  match rejects rows with
  | Some msg => Py.Raise (Py.DatabaseError msg)
  | None => Py.Ok (sent ++ [rows])%list
  end.



End client.

(** [self.batch_size = 1000]. *)
Definition batch_size : Z := 1000.

Definition item (n : string) : Item :=
  mkItem (Some n) (Some n) (Some "huismerk") None None None.

End ProductUpsert.

(* ===================================================================== *)
(** ** Master orchestrator agent: the task scheduler *)
(* ===================================================================== *)

Module Scheduler.

(** A task of [scheduled_tasks]. *)
Record Task := mkTask {
  store : string;
  type : string;
  priority : Z;
  scheduled_at : Z;
  estimated_duration : Z
}.

(** The stores the scheduler goes through. *)
Definition stores : list string := ["dirk"; "albert_heijn"; "hoogvliet"; "jumbo"].

(** [l.sort(key=lambda x: x["priority"], reverse=True)]: the sort is
    stable, so tasks of equal priority keep their order.  A task is put
    before the first task whose priority is not greater than its own. *)
Fixpoint insert_task (t : Task) (sorted : list Task) : list Task :=
  match sorted with
  | [] => [t]
  | u :: rest =>
      if (priority t <? priority u)%Z then u :: insert_task t rest
      else t :: u :: rest
  end.

Definition sort_by_priority (tasks : list Task) : list Task :=
  fold_right insert_task [] tasks.

Section agent.

(** Methods and readings the design leaves open: whether a store is due,
    its priority, the estimate of the duration, and the clock read when
    the task of the [k]-th store is made. *)
Variable should_scrape : string -> bool.
Variable calculate_priority : string -> Z.
Variable estimate_duration : string -> Z.
Variable now : nat -> Z.

(** The loop over the stores, from position [k]. *)
Fixpoint schedule (k : nat) (names : list string) : list Task :=
  match names with
  | [] => []
  | s :: rest =>
      if should_scrape s
      then mkTask s "price_update" (calculate_priority s) (now k)
             (estimate_duration s) :: schedule (S k) rest
      else schedule (S k) rest
  end.

(** [task_scheduler]: what it stores in [state["active_jobs"]]. *)
Definition task_scheduler : list Task :=
  sort_by_priority (schedule 0 stores).

End agent.

End Scheduler.

(* ===================================================================== *)
(** ** Performance monitor agent *)
(* ===================================================================== *)

Module PerformanceMonitor.

(** An entry of [alerts]. *)
Record Alert := mkAlert {
  metric : string;
  current_value : Q;
  threshold : Q;
  severity : string
}.

(** [self.alert_thresholds], in the order of the dict. *)
Definition alert_thresholds : list (string * Q) :=
  [("scrape_duration", 300%Q); ("error_rate", 0.05%Q);
   ("memory_usage", 0.80%Q); ("cpu_usage", 0.70%Q)].

Section agent.

Variable calculate_severity : Q -> Q -> string.

(** The loop of [monitor_performance] over thresholds; [metrics[name]]
    raises when the metric is absent. *)
Fixpoint check (metrics : gmap string Q) (thresholds : list (string * Q))
  : Py.result (list Alert) :=
  match thresholds with
  | [] => Py.Ok []
  | (metric_name, threshold) :: rest =>
      if Py.gt (default 0%Q (metrics !! metric_name)) threshold then
        v ← Py.item metric_name (metrics !! metric_name);
        others ← check metrics rest;
        Py.Ok (mkAlert metric_name v threshold (calculate_severity v threshold)
                 :: others)
      else check metrics rest
  end.

(** [monitor_performance], on the metrics collected: the alerts it stores
    in the state. *)
Definition monitor_performance (metrics : gmap string Q)
  : Py.result (list Alert) :=
  check metrics alert_thresholds.

End agent.

End PerformanceMonitor.

(* ===================================================================== *)
(** ** Agent communication hub *)
(* ===================================================================== *)

Module CommunicationHub.

Section hub.

(** The payload of a message ([Dict[str, Any]]) and the agents are not
    looked into. *)
Variable Data : Type.
Variable Agent : Type.

(** The ["message"] of a queue entry: the dict a caller passed to
    [send_message], or the dict [broadcast_event] builds from the event
    type and the data. *)
Inductive Body :=
| Custom (message : Data)
| Event (event_type : string) (data : Data).

Record Message := mkMessage {
  from : string;
  to : string;
  message : Body;
  timestamp : Z
}.

(** [self.message_queue] (first in, first out; [put] appends),
    [self.agents] and [self.event_listeners], the latter in the order of
    the dict. *)
Record Hub := mkHub {
  message_queue : list Message;
  agents : gmap string Agent;
  event_listeners : list (string * list string)
}.

Definition init : Hub := mkHub [] ∅ [].

(** [now k] is the clock read when the queue holds [k] messages. *)
Variable now : nat -> Z.

(** [register_agent]. *)
Definition register_agent (hub : Hub) (agent_id : string) (agent : Agent) : Hub :=
  mkHub (message_queue hub) (<[agent_id := agent]> (agents hub))
    (event_listeners hub).

(** [send_message]. *)
Definition send_message (hub : Hub) (from_agent to_agent : string)
    (body : Body) : Hub :=
  mkHub (message_queue hub
         ++ [mkMessage from_agent to_agent body (now (length (message_queue hub)))])%list
    (agents hub) (event_listeners hub).

(** The loop of [broadcast_event] over the entries that remain. *)
Fixpoint broadcast_to (entries : list (string * list string)) (hub : Hub)
    (event_type : string) (data : Data) : Hub :=
  match entries with
  | [] => hub
  | (agent_id, listeners) :: rest =>
      if existsb (String.eqb event_type) listeners
      then broadcast_to rest
             (send_message hub "hub" agent_id (Event event_type data))
             event_type data
      else broadcast_to rest hub event_type data
  end.

(** [broadcast_event]. *)
Definition broadcast_event (hub : Hub) (event_type : string) (data : Data) : Hub :=
  broadcast_to (event_listeners hub) hub event_type data.

(** The calls the hub offers. *)
Inductive Call :=
| Register (agent_id : string) (agent : Agent)
| Send (from_agent to_agent : string) (message : Data)
| Broadcast (event_type : string) (data : Data).

Definition call (hub : Hub) (c : Call) : Hub :=
  match c with
  | Register agent_id agent => register_agent hub agent_id agent
  | Send f t m => send_message hub f t (Custom m)
  | Broadcast event_type data => broadcast_event hub event_type data
  end.

Definition run (hub : Hub) (cs : list Call) : Hub := fold_left call cs hub.

(** Sender, receiver and content of a message. *)
Definition envelope (m : Message) : string * string * Body :=
  (from m, to m, message m).

(** What the [Send] calls of a list of calls ask to deliver. *)
Definition sends (cs : list Call) : list (string * string * Body) :=
  flat_map (fun c => match c with
                     | Send f t m => [(f, t, Custom m)]
                     | _ => []
                     end) cs.

End hub.

Arguments Custom {Data} message.
Arguments Event {Data} event_type data.
Arguments Register {Data Agent} agent_id agent.
Arguments Send {Data Agent} from_agent to_agent message.
Arguments Broadcast {Data Agent} event_type data.

End CommunicationHub.

(* ===================================================================== *)
(** ** Error recovery agent: the dispatch *)
(* ===================================================================== *)

Module RecoveryDispatch.

Section agent.

(** What a recovery strategy returns, and the four strategies; their
    bodies are not part of the sources. *)
Variable R : Type.
Variable network_error_recovery : ErrorRecovery.ErrorState -> R.
Variable rate_limit_recovery : ErrorRecovery.ErrorState -> R.
Variable parsing_error_recovery : ErrorRecovery.ErrorState -> R.
Variable database_error_recovery : ErrorRecovery.ErrorState -> R.

(** [self.retry_strategies]. *)
Definition retry_strategies : list (string * (ErrorRecovery.ErrorState -> R)) :=
  [("network_error", network_error_recovery);
   ("rate_limit", rate_limit_recovery);
   ("parsing_error", parsing_error_recovery);
   ("database_error", database_error_recovery)].

(** [state["recovery_result"]]: what the strategy returned, or the dict
    with [success] and [message]. *)
Inductive RecoveryResult :=
| Recovered (result : R)
| NotRecovered (success : bool) (message : string).

Fixpoint strategy_of (strategies : list (string * (ErrorRecovery.ErrorState -> R)))
    (error_type : string) : option (ErrorRecovery.ErrorState -> R) :=
  match strategies with
  | [] => None
  | (key, f) :: rest =>
      if String.eqb key error_type then Some f else strategy_of rest error_type
  end.

(** [execute_recovery]: the state and its [recovery_result].
    [state["error_type"]] raises when the error has not been classified. *)
Definition execute_recovery (state : ErrorRecovery.ErrorState)
  : Py.result (ErrorRecovery.ErrorState * RecoveryResult) :=
  error_type ← Py.item "error_type" (ErrorRecovery.error_type state);
  match strategy_of retry_strategies error_type with
  | Some strategy => Py.Ok (state, Recovered (strategy state))
  | None => Py.Ok (state, NotRecovered false "No recovery strategy available")
  end.

End agent.

Arguments Recovered {R} result.
Arguments NotRecovered {R} success message.

End RecoveryDispatch.

(* ===================================================================== *)
(** ** Job monitor: durations *)
(* ===================================================================== *)

Module JobMonitorView.

(** The minutes and seconds of [formatDuration] for a difference in
    milliseconds: [Math.floor(diff / 60000)] and
    [Math.floor((diff % 60000) / 1000)]; [%] takes the sign of [diff]. *)
Definition minutes (diff : Z) : Z := (diff / 60000)%Z.
Definition seconds (diff : Z) : Z := (Z.rem diff 60000 / 1000)%Z.

(** [formatDuration(startTime, endTime?)] on times in milliseconds, as
    [getTime] gives them; [now] is the time [new Date()] reads when there
    is no end time. *)
Definition formatDuration (now : Z) (startTime : Z) (endTime : option Z) : string :=
  let end_ := match endTime with Some e => e | None => now end in
  let diff := (end_ - startTime)%Z in
  pretty (minutes diff) +:+ "m " +:+ pretty (seconds diff) +:+ "s".

(** [jobs.filter(j => j.status === "running").length]. *)
Definition active_jobs (jobs : list JobMonitor.ScrapingJob) : nat :=
  length (List.filter
            (fun j => match JobMonitor.status j with
                      | JobMonitor.running => true
                      | _ => false
                      end) jobs).

End JobMonitorView.

(* ===================================================================== *)
(** ** Retry with backoff: time spent waiting *)
(* ===================================================================== *)

Module RetryTiming.

(** The sum of the waits passed to [asyncio.sleep]. *)
Definition total (slept : list Q) : Q := fold_right Qplus 0%Q slept.

End RetryTiming.

(* ===================================================================== *)
(** ** The stores table *)
(* ===================================================================== *)

Module StoresTable.

(** A row of [stores]; the generated id and the two timestamps are left
    out, [is_active] has its default. *)
Record StoreRow := mkStoreRow {
  name : string;
  slug : string;
  base_url : string;
  logo_url : string;
  is_active : bool
}.

Definition has_slug (s : string) (table : list StoreRow) : bool :=
  existsb (fun row => String.eqb (slug row) s) table.

(** A value written to a [VARCHAR(n)] column: a value of at most [n]
    characters is stored as it is; a longer one is cut to [n] characters
    when the characters cut off are all spaces, and is an error
    otherwise. *)
Definition varchar (n : nat) (value : string) : option string :=
  let chars := list_ascii_of_string value in
  if length chars <=? n then Some value
  else if forallb (Ascii.eqb Text.space) (drop n chars)
       then Some (string_of_list_ascii (take n chars))
       else None.

(** The row as the table takes it: [name] is [VARCHAR(100)], [slug] is
    [VARCHAR(50)], the two URLs are [TEXT]. *)
Definition stored (row : StoreRow) : option StoreRow :=
  name' ← varchar 100 (name row);
  slug' ← varchar 50 (slug row);
  Some (mkStoreRow name' slug' (base_url row) (logo_url row) (is_active row)).

(** [INSERT INTO stores (...) VALUES ...]: [slug] is [UNIQUE], so the
    statement fails, and adds nothing, when a slug of its rows is in the
    table or occurs twice among them, or when a value does not fit its
    column.  [None] is the failed statement: the table stays as it
    was. *)
Fixpoint insert (rows : list StoreRow) (table : list StoreRow)
  : option (list StoreRow) :=
  match rows with
  | [] => Some table
  | row :: rest =>
      match stored row with
      | None => None
      | Some row' =>
          if has_slug (slug row') table then None
          else insert rest (table ++ [row'])%list
      end
  end.

(** [INSERT ... ON CONFLICT (slug) DO NOTHING]: a row whose slug is in the
    table is skipped; a value that does not fit its column makes the
    statement fail all the same. *)
Fixpoint insert_do_nothing (rows : list StoreRow) (table : list StoreRow)
  : option (list StoreRow) :=
  match rows with
  | [] => Some table
  | row :: rest =>
      match stored row with
      | None => None
      | Some row' =>
          if has_slug (slug row') table then insert_do_nothing rest table
          else insert_do_nothing rest (table ++ [row'])%list
      end
  end.

(** The rows fit their columns. *)
Definition fits (row : StoreRow) : Prop :=
  String.length (name row) <= 100 /\ String.length (slug row) <= 50.

(** The rows of the initial schema and of the two later migrations. *)
Definition initial_stores : list StoreRow :=
  [mkStoreRow "Albert Heijn" "albert_heijn" "https://www.ah.nl"
     "https://ah.nl/logo.png" true;
   mkStoreRow "Dirk" "dirk" "https://www.dirk.nl" "https://dirk.nl/logo.png" true;
   mkStoreRow "Hoogvliet" "hoogvliet" "https://www.hoogvliet.com"
     "https://hoogvliet.com/logo.png" true;
   mkStoreRow "Jumbo" "jumbo" "https://www.jumbo.com"
     "https://jumbo.com/logo.png" true].

Definition kruidvat : StoreRow :=
  mkStoreRow "Kruidvat" "kruidvat" "https://www.kruidvat.nl"
    "https://www.kruidvat.nl/logo.png" true.

Definition etos : StoreRow :=
  mkStoreRow "Etos" "etos" "https://www.etos.nl"
    "https://www.etos.nl/logo.png" true.

Definition add_kruidvat (table : list StoreRow) : option (list StoreRow) :=
  insert_do_nothing [kruidvat] table.

Definition add_etos (table : list StoreRow) : option (list StoreRow) :=
  insert_do_nothing [etos] table.

(** The table after the initial schema and the two later inserts, run on
    an empty database. *)
Definition migrated : option (list StoreRow) :=
  table ← insert initial_stores [];
  table ← add_kruidvat table;
  add_etos table.

End StoresTable.

(* ===================================================================== *)
(** ** Scrapers page: the id of an agent *)
(* ===================================================================== *)

Module AgentId.

(** [s.replace(' ', '_')] with a string pattern: the first space only. *)
Fixpoint replace_first_space (s : list ascii) : list ascii :=
  match s with
  | [] => []
  | c :: rest =>
      if Ascii.eqb c Text.space then "_"%char :: rest
      else c :: replace_first_space rest
  end.

(** [store.name.toLowerCase().replace(' ', '_')], the id passed to
    [startAgent] and [stopAgent]. *)
Definition agent_id_chars (store_name : list ascii) : list ascii :=
  replace_first_space (Text.lower_chars store_name).

Definition agent_id (store_name : string) : string :=
  string_of_list_ascii (agent_id_chars (list_ascii_of_string store_name)).

(** The names of the store cards of the page. *)
Definition cards : list string :=
  ["Albert Heijn"; "Jumbo"; "Etos"; "Dirk"; "Hoogvliet"].

Definition spaces (s : list ascii) : nat :=
  length (List.filter (fun c => Ascii.eqb c Text.space) s).

End AgentId.

(* ===================================================================== *)
(** * Properties *)
(* ===================================================================== *)

(** ** Job Orchestrator: mutual exclusion *)

Section orchestrator_properties.
Import Orchestrator.

Lemma active_count_app p js1 js2 :
  active_count p (js1 ++ js2) = active_count p js1 + active_count p js2.
Proof. unfold active_count. by rewrite List.filter_app, length_app. Qed.

Lemma active_count_queued p q k :
  active_count p [mkJob q k Queued] = if String.eqb q p then 1 else 0.
Proof. unfold active_count, active_for. simpl. by destruct (String.eqb q p). Qed.

Lemma has_active_false_count st p :
  has_active st p = false -> active_count p (jobs st) = 0.
Proof.
  unfold has_active, active_count. induction (jobs st) as [|j js IH]; simpl.
  - done.
  - intros [Hj Hjs]%orb_false_iff. rewrite Hj. auto.
Qed.

Lemma has_active_true_count st p :
  has_active st p = true -> 0 < active_count p (jobs st).
Proof.
  unfold has_active, active_count. induction (jobs st) as [|j js IH]; simpl.
  - done.
  - destruct (active_for p j); simpl; [lia | auto].
Qed.

(** Overwriting a record by one of the same provider that is not more
    active than the old one does not raise the count. *)
Lemma active_count_insert p js jid j j' :
  js !! jid = Some j ->
  (active_for p j' = true -> active_for p j = true) ->
  active_count p (<[jid := j']> js) <= active_count p js.
Proof.
  unfold active_count. revert jid.
  induction js as [|x js IH]; intros [|jid] Hlk Himp; simpl in *; try done.
  - simplify_eq. destruct (active_for p j') eqn:E.
    + rewrite (Himp eq_refl). done.
    + destruct (active_for p j); simpl; lia.
  - specialize (IH jid Hlk Himp). destruct (active_for p x); simpl; lia.
Qed.

Lemma active_count_move p guard target jid js :
  (forall s, guard s = true -> terminal s = false) ->
  active_count p (move guard target jid js) <= active_count p js.
Proof.
  intros Hg. unfold move. destruct (js !! jid) as [j|] eqn:Hlk; [|done].
  destruct (guard (job_state j)) eqn:G; [|done].
  apply active_count_insert with (j := j); [done|].
  unfold active_for. simpl. intros [-> _]%andb_true_iff.
  by rewrite (Hg _ G).
Qed.

Lemma step_active_count st e p :
  active_count p (jobs st) <= 1 ->
  active_count p (jobs (step st e)) <= 1.
Proof.
  intros Hinv.
  assert (Hstart : forall q k, active_count p (jobs (fst (start st q k))) <= 1).
  { intros q k. unfold start.
    destruct (negb (known st q)); [done|].
    destruct (has_active st q) eqn:Ha; [done|]. simpl.
    rewrite active_count_app, active_count_queued.
    destruct (String.eqb q p) eqn:Eq; [|lia].
    apply String.eqb_eq in Eq as ->.
    rewrite (has_active_false_count _ _ Ha). done. }
  destruct e as [q k|q|jid|jid o|jid partial]; simpl; auto.
  - destruct (running_count (jobs st) <? pool_bound st); [|done]. simpl.
    etrans; [apply active_count_move|done]. by intros [].
  - etrans; [apply active_count_move|done]. by intros [].
  - etrans; [apply active_count_move|done]. by intros [].
Qed.

Lemma run_active_count es : forall st p,
  active_count p (jobs st) <= 1 ->
  active_count p (jobs (run st es)) <= 1.
Proof.
  induction es as [|e es IH]; intros st p Hinv; simpl; [done|].
  apply IH. by apply step_active_count.
Qed.

Lemma move_known ps guard target jid js :
  Forall (fun j => existsb (String.eqb (job_provider j)) ps = true) js ->
  Forall (fun j => existsb (String.eqb (job_provider j)) ps = true)
         (move guard target jid js).
Proof.
  intros H. unfold move. destruct (js !! jid) as [j|] eqn:Hlk; [|done].
  destruct (guard (job_state j)); [|done].
  apply Forall_insert; [done|]. simpl.
  by apply (Forall_lookup_1 _ _ _ _ H Hlk).
Qed.

Lemma step_known st e : jobs_known st -> jobs_known (step st e).
Proof.
  unfold jobs_known. intros H.
  assert (Hstart : forall q k, jobs_known (fst (start st q k))).
  { intros q k. unfold jobs_known, start.
    destruct (negb (known st q)) eqn:Hk; [done|].
    destruct (has_active st q); [done|]. simpl.
    apply Forall_app; split; [done|]. constructor; [|constructor]. simpl.
    by apply negb_false_iff in Hk. }
  destruct e as [q k|q|jid|jid o|jid partial]; simpl;
    try apply Hstart; try by apply move_known.
  destruct (running_count (jobs st) <? pool_bound st); [|done].
  by apply move_known.
Qed.

Lemma run_known es : forall st, jobs_known st -> jobs_known (run st es).
Proof.
  induction es as [|e es IH]; intros st H; simpl; [done|].
  by apply IH, step_known.
Qed.

Lemma has_active_known st p :
  jobs_known st -> has_active st p = true -> known st p = true.
Proof.
  unfold jobs_known, has_active, known.
  intros H (j & Hin & Hact)%existsb_exists.
  rewrite List.Forall_forall in H. specialize (H j Hin).
  apply andb_true_iff in Hact as [<-%String.eqb_eq _]. done.
Qed.

(** C1 (mutual exclusion).  In the state reached from the initial store by
    any sequence of events (manual starts, due marks, slot acquisitions,
    completions and cancellations, in any interleaving), every provider has
    at most one job in a non-terminal state; and a start for a provider
    that has a non-terminal job answers [JobAlreadyRunning] and leaves the
    store, hence the job records, as it was. *)
Theorem at_most_one_active_job (ps : list string) (bound : nat) (es : list Event) :
  let st := run (init ps bound) es in
  (forall p, active_count p (jobs st) <= 1) /\
  (forall p k, has_active st p = true ->
     start st p k = (st, inl JobAlreadyRunning)).
Proof.
  intros st. split.
  - intros p. apply run_active_count. unfold active_count. simpl. lia.
  - intros p k Ha. unfold start.
    assert (Hk : known st p = true).
    { apply has_active_known; [|done]. apply run_known. constructor. }
    by rewrite Hk, Ha.
Qed.

Lemma at_most_one_active_job_witness :
  let st := run (init ["store-a"; "store-b"] 2)
                [EvStart "store-a" FullSync; EvAcquire 0; EvDue "store-b"] in
  has_active st "store-a" = true /\
  start st "store-a" IncrementalUpdate = (st, inl JobAlreadyRunning) /\
  length (jobs (fst (start st "store-a" IncrementalUpdate))) = 2.
Proof.
  intros st. split; [reflexivity|].
  pose proof (proj2 (at_most_one_active_job ["store-a"; "store-b"] 2
    [EvStart "store-a" FullSync; EvAcquire 0; EvDue "store-b"])
    "store-a" IncrementalUpdate eq_refl) as H.
  split; [exact H|]. fold st in H. rewrite H. reflexivity.
Defined.

End orchestrator_properties.

(** ** Job monitor: the movement of job states *)

Section job_monitor_properties.
Import JobMonitor.

Lemma handleJobAction_lookup prev jobId action i job :
  prev !! i = Some job ->
  handleJobAction prev jobId action !! i =
    Some (if String.eqb (id job) jobId then
            match action with
            | pause => with_status job paused
            | resume => with_status job running
            | stop => with_status job failed
            | retry =>
                mkScrapingJob (id job) (store job) (type job) pending 0%Q
                  (startTime job) (estimatedEnd job) 0%Z
                  (productsTotal job) 0%Z
            end
          else job).
Proof.
  intros Hlk. unfold handleJobAction.
  rewrite list_lookup_fmap_Some. exists job. split; [|done]. reflexivity.
Qed.

(** C3, as the code has it.  [handleJobAction] leaves every job with
    another id as it is.  On the job it names, an action the monitor
    offers for its status behaves as follows: pause, resume and stop never
    lower the rank of the status (pending, then running or paused, then
    completed or failed); retry, offered for failed jobs only, puts the
    job back to pending with its progress and counters at zero.  A
    completed job is offered no action. *)
Theorem handleJobAction_offered_moves
    (prev : list ScrapingJob) (jobId : string) (action : Action)
    (i : nat) (job : ScrapingJob) :
  prev !! i = Some job ->
  exists job', handleJobAction prev jobId action !! i = Some job' /\
    (id job <> jobId -> job' = job) /\
    (id job = jobId -> offered (status job) action = true ->
       match action with
       | retry =>
           status job = failed /\ status job' = pending /\
           progress job' = 0%Q /\ productsProcessed job' = 0%Z /\
           errorCount job' = 0%Z
       | _ => rank (status job) <= rank (status job')
       end) /\
    (forall a, offered completed a = false).
Proof.
  intros Hlk. eexists. split; [by apply handleJobAction_lookup|].
  split; [|split].
  - intros Hne. apply String.eqb_neq in Hne. by rewrite Hne.
  - intros Heq Hoff. apply String.eqb_eq in Heq. rewrite Heq.
    destruct job as [? ? ? st ? ? ? ? ? ?]; simpl in *.
    destruct st, action; simpl in *; try discriminate; auto.
  - by intros [].
Qed.

Lemma handleJobAction_offered_moves_witness :
  exists job', handleJobAction [failed_job] "job-1" retry !! 0 = Some job' /\
    status job' = pending.
Proof.
  destruct (handleJobAction_offered_moves [failed_job] "job-1" retry 0
              failed_job eq_refl) as (job' & Hlk & _ & Hretry & _).
  exists job'. split; [exact Hlk|].
  exact (proj1 (proj2 (Hretry eq_refl eq_refl))).
Defined.

(** C3, as stated, fails: the retry button of a failed job moves it from a
    final status back to pending. *)
Lemma retry_leaves_final_status :
  offered (status failed_job) retry = true /\
  terminal (status failed_job) = true /\
  map status (handleJobAction [failed_job] (id failed_job) retry) = [pending] /\
  ~ forward_only.
Proof.
  repeat split; try reflexivity.
  intros H.
  destruct (H failed_job _ retry eq_refl eq_refl) as [Hrank _].
  simpl in Hrank. lia.
Qed.

End job_monitor_properties.

(** ** Error recovery agent: what the classification reads *)

Section error_recovery_properties.
Import ErrorRecovery.

Lemma kind_of_message (e : Failure) :
  kind_of e = kind_of (mkFailure None "" (message e)).
Proof. reflexivity. Qed.

Lemma kind_of_taxonomy (e : Failure) :
  In (kind_of e)
     (map Some ["network_error"; "rate_limit"; "parsing_error";
                "database_error"; "unknown"]).
Proof.
  unfold kind_of, classify_error. simpl.
  repeat match goal with
         | |- context [if ?b then _ else _] => destruct b
         end; simpl; tauto.
Qed.

(** C4, as the code has it.  The kind is read off the text of the failure
    by substring tests and nothing else: failures with the same message
    get the same kind whatever their status code and exception category,
    and the kind is one of the five names.  For a message of ASCII text the
    tests are these, in this order: "network" or "timeout" in the
    lower-cased message gives network_error; otherwise "rate limit" in the
    lower-cased message or "429" in the message gives rate_limit; otherwise
    "parsing" or "html" in the lower-cased message gives parsing_error;
    otherwise "database" or "connection" in it gives database_error;
    otherwise the kind is unknown. *)
Theorem classify_error_reads_message (e1 e2 : Failure) :
  message e1 = message e2 ->
  kind_of e1 = kind_of e2 /\
  In (kind_of e1)
     (map Some ["network_error"; "rate_limit"; "parsing_error";
                "database_error"; "unknown"]) /\
  (Text.ascii_text (message e1) ->
   let text := Text.lower (message e1) in
   let network :=
     Text.contains "network" text || Text.contains "timeout" text in
   let rate :=
     Text.contains "rate limit" text || Text.contains "429" (message e1) in
   let parsing :=
     Text.contains "parsing" text || Text.contains "html" text in
   let database :=
     Text.contains "database" text || Text.contains "connection" text in
   (kind_of e1 = Some "network_error" <-> network = true) /\
   (kind_of e1 = Some "rate_limit" <-> network = false /\ rate = true) /\
   (kind_of e1 = Some "parsing_error" <->
    network = false /\ rate = false /\ parsing = true) /\
   (kind_of e1 = Some "database_error" <->
    network = false /\ rate = false /\ parsing = false /\ database = true) /\
   (kind_of e1 = Some "unknown" <->
    network = false /\ rate = false /\ parsing = false /\ database = false)).
Proof.
  intros Hmsg. split; [|split].
  - rewrite (kind_of_message e1), (kind_of_message e2). by rewrite Hmsg.
  - apply kind_of_taxonomy.
  - intros _. unfold kind_of, classify_error, str. simpl.
    destruct (Text.contains "network" (Text.lower (message e1))
              || Text.contains "timeout" (Text.lower (message e1)));
    destruct (Text.contains "rate limit" (Text.lower (message e1))
              || Text.contains "429" (message e1));
    destruct (Text.contains "parsing" (Text.lower (message e1))
              || Text.contains "html" (Text.lower (message e1)));
    destruct (Text.contains "database" (Text.lower (message e1))
              || Text.contains "connection" (Text.lower (message e1)));
    simpl; repeat split; intros; destruct_and?; congruence.
Qed.

Lemma classify_error_reads_message_witness :
  kind_of (mkFailure (Some 429%Z) "RateLimitError" "Connection timeout")
  = kind_of (mkFailure None "DatabaseError" "Connection timeout") /\
  kind_of (mkFailure (Some 429%Z) "RateLimitError" "Connection timeout")
  = Some "network_error".
Proof.
  pose proof (classify_error_reads_message
    (mkFailure (Some 429%Z) "RateLimitError" "Connection timeout")
    (mkFailure None "DatabaseError" "Connection timeout") eq_refl)
    as (Hsame & _ & Hrules).
  split; [exact Hsame|].
  apply Hrules; [|reflexivity].
  unfold Text.ascii_text, Text.ascii_chars. simpl.
  repeat constructor.
Defined.

(** C4, as stated, fails: two failures with the same status code and the
    same exception category are classified differently because their
    messages differ. *)
Lemma same_metadata_different_kind :
  status_code failure_a = status_code failure_b /\
  exception_category failure_a = exception_category failure_b /\
  kind_of failure_a = Some "network_error" /\
  kind_of failure_b = Some "unknown" /\
  ~ metadata_only.
Proof.
  repeat split; try reflexivity.
  intros H. specialize (H failure_a failure_b eq_refl eq_refl). discriminate H.
Qed.

End error_recovery_properties.

(** ** Retry with backoff: what a rate limit costs *)

Section retry_properties.
Import Retry.
Context {A : Type}.
Implicit Types (func : nat -> Outcome A) (draw : nat -> Q).

(** Attempts that are all rate limited are gone through one by one, each
    followed by its wait. *)
Lemma attempts_limited func draw (n : nat) : forall s rest slept,
  (forall i, s <= i < s + n -> func i = RateLimitError) ->
  attempts func draw (seq s n ++ rest) slept =
  attempts func draw rest
    (slept ++ map (fun a => wait_time a (draw a)) (seq s n)).
Proof.
  induction n as [|n IH]; intros s rest slept Hlim; simpl.
  - by rewrite app_nil_r.
  - rewrite (Hlim s) by lia. rewrite IH by (intros i Hi; apply Hlim; lia).
    by rewrite <- app_assoc.
Qed.

Lemma retry_limited_prefix func draw (k m : nat) :
  (forall i, i < k -> func i = RateLimitError) ->
  retry_with_backoff func draw (k + m) =
  attempts func draw (seq k m) (waits draw k).
Proof.
  intros Hlim. unfold retry_with_backoff, waits.
  rewrite seq_app. rewrite attempts_limited by (intros i Hi; apply Hlim; lia).
  reflexivity.
Qed.

Lemma retry_all_limited func draw (max_retries : nat) :
  (forall i, i < max_retries -> func i = RateLimitError) ->
  retry_with_backoff func draw max_retries =
  (Exception "Max retries exceeded", waits draw max_retries).
Proof.
  intros Hlim. rewrite <- (Nat.add_0_r max_retries) at 1.
  by rewrite retry_limited_prefix.
Qed.

Lemma calls_attempts func draw (remaining : list nat) : forall slept,
  calls (attempts func draw remaining slept) <= length slept + length remaining.
Proof.
  induction remaining as [|a rest IH]; intros slept; simpl.
  - unfold calls. simpl. lia.
  - destruct (func a).
    + unfold calls. simpl. lia.
    + etrans; [apply IH|]. rewrite length_app. simpl. lia.
    + unfold calls. simpl. lia.
Qed.

(** C8, as the code has it.  A rate-limited call is followed by a wait of
    [2 ** attempt] plus the jitter drawn, and uses up one of the
    [max_retries] attempts: after [k] rate-limited calls the run ends with
    "Max retries exceeded" when [k] is [max_retries], and otherwise with
    what call [k] does (its value, or its exception, which is not
    retried).  [func] is never called more than [max_retries] times. *)
Theorem retry_with_backoff_counts_rate_limits func draw (max_retries k : nat) :
  (forall i, i < k -> func i = RateLimitError) ->
  k <= max_retries ->
  (k = max_retries ->
     retry_with_backoff func draw max_retries =
     (Exception "Max retries exceeded", waits draw k)) /\
  (k < max_retries -> forall v, func k = Returns v ->
     retry_with_backoff func draw max_retries = (Ok v, waits draw k)) /\
  (k < max_retries -> forall msg, func k = OtherError msg ->
     retry_with_backoff func draw max_retries = (Propagated msg, waits draw k)) /\
  calls (retry_with_backoff func draw max_retries) <= max_retries.
Proof.
  intros Hlim Hk. repeat split.
  - intros ->. by apply retry_all_limited.
  - intros Hlt v Hv. replace max_retries with (k + S (max_retries - S k)) by lia.
    rewrite retry_limited_prefix by done. simpl. by rewrite Hv.
  - intros Hlt msg Hmsg. replace max_retries with (k + S (max_retries - S k)) by lia.
    rewrite retry_limited_prefix by done. simpl. by rewrite Hmsg.
  - unfold retry_with_backoff. etrans; [apply calls_attempts|].
    rewrite length_seq. simpl. lia.
Qed.

End retry_properties.

Lemma retry_with_backoff_counts_rate_limits_witness :
  Retry.retry_with_backoff Retry.limited_thrice (fun _ => 1 # 2) 5
  = (Retry.Ok "page", [3 # 2; 5 # 2; 9 # 2]).
Proof.
  assert (Hlim : forall i, i < 3 -> Retry.limited_thrice i = Retry.RateLimitError).
  { intros i Hi. unfold Retry.limited_thrice.
    destruct (Nat.ltb_spec i 3) as [_|Hge]; [reflexivity | lia]. }
  assert (Hle : 3 <= 5) by lia.
  assert (Hlt : 3 < 5) by lia.
  exact (proj1 (proj2 (retry_with_backoff_counts_rate_limits
                         Retry.limited_thrice (fun _ => 1 # 2) 5 3 Hlim Hle))
           Hlt "page" eq_refl).
Defined.

(** C8, as stated, fails: with the default [max_retries] of 3, a source
    that is rate limited three times and would answer the fourth call is
    given up with "Max retries exceeded" after waits of 1, 2 and 4 seconds
    plus jitter.  The rate-limited attempts are the ones [max_retries]
    counts, and the wait is not a fixed cooldown. *)
Lemma rate_limits_use_up_max_retries :
  Retry.retry_with_backoff Retry.limited_thrice (fun _ => 1 # 2)
    Retry.default_max_retries
  = (Retry.Exception "Max retries exceeded", [3 # 2; 5 # 2; 9 # 2]) /\
  Retry.limited_thrice 3 = Retry.Returns "page" /\
  ~ Retry.rate_limits_uncounted /\
  ~ Retry.fixed_cooldown.
Proof.
  split; [reflexivity|]. split; [reflexivity|]. split.
  - intros (func & draw & max_retries & v & Hlim & Hok).
    rewrite (retry_all_limited func draw max_retries Hlim) in Hok.
    discriminate Hok.
  - intros H. specialize (H 0 1 0%Q). discriminate H.
Qed.

(** ** Price validation agent: outliers and the length of the history *)

Section outlier_properties.
Import PriceValidation.
Variable get_prices : string -> list Q.
Variable d : OutlierDetector.

Lemma outliers_of_short (products : list Product) :
  (forall product, In product products ->
     length (get_prices (id product)) <= 10) ->
  outliers_of get_prices d products = Py.Ok [].
Proof.
  induction products as [|product rest IH]; intros Hshort; simpl; [done|].
  destruct (Nat.ltb_spec 10 (length (get_prices (id product)))) as [Hlt|_].
  - specialize (Hshort product (or_introl eq_refl)). lia.
  - apply IH. intros q Hq. apply Hshort. by right.
Qed.

Lemma outliers_of_spec (products : list Product) :
  (forall product, In product products ->
     10 < length (get_prices (id product)) -> is_Some (price product)) ->
  exists found,
    outliers_of get_prices d products = Py.Ok found /\
    forall o, In o found <->
      exists product p,
        In product products /\ price product = Some p /\
        10 < length (get_prices (id product)) /\
        detect d p (get_prices (id product)) = true /\
        o = entry get_prices d product p.
Proof.
  induction products as [|product rest IH]; intros Hpriced; simpl.
  - exists []. split; [done|]. intros o. split; [done|].
    by intros (? & ? & [] & _).
  - destruct IH as (found & Hrest & Hfound).
    { intros q Hq. apply Hpriced. by right. }
    rewrite Hrest.
    destruct (Nat.ltb_spec 10 (length (get_prices (id product)))) as [Hlt|Hge].
    + destruct (Hpriced product (or_introl eq_refl) Hlt) as [p Hp].
      rewrite Hp. simpl.
      destruct (detect d p (get_prices (id product))) eqn:Hdet.
      * eexists. split; [reflexivity|]. intros o. simpl. rewrite Hfound. split.
        -- intros [<-|(q & pq & Hin & Hq)].
           ++ exists product, p. by repeat split; auto.
           ++ exists q, pq. by repeat split; auto; tauto.
        -- intros (q & pq & [<-|Hin] & Hpq & Hlen & Hd & ->).
           ++ left. unfold entry. congruence.
           ++ right. exists q, pq. by repeat split.
      * exists found. split; [reflexivity|]. intros o. rewrite Hfound. split.
        -- intros (q & pq & Hin & Hq). exists q, pq. by repeat split; auto; tauto.
        -- intros (q & pq & [<-|Hin] & Hpq & Hlen & Hd & ->).
           ++ congruence.
           ++ exists q, pq. by repeat split.
    + exists found. split; [reflexivity|]. intros o. rewrite Hfound. split.
      * intros (q & pq & Hin & Hq). exists q, pq. by repeat split; auto; tauto.
      * intros (q & pq & [<-|Hin] & Hpq & Hlen & Hd & ->).
        -- lia.
        -- exists q, pq. by repeat split.
Qed.

(** C5, as the code has it.  [detect_outliers] runs the detector on a
    product only when its history has more than 10 points, that is at
    least 11.  When every product with such a history carries a price,
    the call returns, and its outliers are exactly the entries of the
    products whose history has more than 10 points and whose price the
    detector flags; so every entry belongs to a history of more than 10
    points, and a product with 10 points or fewer is never flagged,
    whatever its price. *)
Theorem detect_outliers_needs_more_than_ten (state : ValidationState) :
  (forall product, In product (validated_products state) ->
     10 < length (get_prices (id product)) -> is_Some (price product)) ->
  exists state',
    detect_outliers get_prices d state = Py.Ok state' /\
    (forall o, In o (outliers state') <->
       exists product p,
         In product (validated_products state) /\ price product = Some p /\
         10 < length (get_prices (id product)) /\
         detect d p (get_prices (id product)) = true /\
         o = entry get_prices d product p) /\
    (forall o, In o (outliers state') ->
       10 < length (get_prices (product_id o))).
Proof.
  intros Hpriced.
  destruct (outliers_of_spec _ Hpriced) as (found & Hrun & Hfound).
  unfold detect_outliers. rewrite Hrun. simpl. eexists. split; [reflexivity|].
  simpl. split; [exact Hfound|].
  intros o (product & p & _ & _ & Hlen & _ & ->)%Hfound. exact Hlen.
Qed.

End outlier_properties.

Lemma detect_outliers_needs_more_than_ten_witness :
  exists state',
    PriceValidation.detect_outliers
      (fun _ => 16.75%Q :: PriceValidation.ten_prices)
      PriceValidation.span_detector
      (PriceValidation.mkValidationState [] [PriceValidation.priced "p-1" 40%Q] [] [])
    = Py.Ok state' /\
    forall o, In o (PriceValidation.outliers state') ->
      10 < length (16.75%Q :: PriceValidation.ten_prices).
Proof.
  destruct (detect_outliers_needs_more_than_ten
              (fun _ => 16.75%Q :: PriceValidation.ten_prices)
              PriceValidation.span_detector
              (PriceValidation.mkValidationState []
                 [PriceValidation.priced "p-1" 40%Q] [] []))
    as (state' & Hrun & _ & Hlen).
  - intros product [<-|[]] _. by eexists.
  - exists state'. split; [exact Hrun | exact Hlen].
Defined.

(** C5, as stated, fails at exactly 10 points: a price the detector flags
    is not looked at when its history has 10 points, and is reported when
    the history has 11. *)
Lemma ten_points_are_not_enough :
  length PriceValidation.ten_prices = 10 /\
  PriceValidation.detect PriceValidation.span_detector 40%Q
    PriceValidation.ten_prices = true /\
  PriceValidation.outliers_of (fun _ => PriceValidation.ten_prices)
    PriceValidation.span_detector [PriceValidation.priced "p-1" 40%Q]
  = Py.Ok [] /\
  PriceValidation.outliers_of (fun _ => 16.75%Q :: PriceValidation.ten_prices)
    PriceValidation.span_detector [PriceValidation.priced "p-1" 40%Q]
  = Py.Ok [PriceValidation.mkOutlier "p-1" 40%Q (16.75%Q, 16.75%Q) 1%Q] /\
  ~ PriceValidation.flagged_at_ten.
Proof.
  repeat split; try reflexivity.
  intros (get_prices & d & product & found & Hlen & Hrun & Hne).
  rewrite outliers_of_short in Hrun.
  - apply Hne. congruence.
  - intros q [<-|[]]. lia.
Qed.

(** ** Database operations agent: applying a batch twice *)

Section database_properties.
Import DatabaseOperations.

Lemma upsert_lookup_other (rows : list CurrentPrice) : forall t k,
  ~ In k (map cp_store_product_id rows) ->
  fold_left put rows t !! k = t !! k.
Proof.
  induction rows as [|r rows IH]; intros t k Hk; simpl in *; [done|].
  rewrite IH by tauto. unfold put. apply lookup_insert_ne. tauto.
Qed.

Lemma upsert_lookup_written (rows : list CurrentPrice) : forall t t' k,
  In k (map cp_store_product_id rows) ->
  fold_left put rows t !! k = fold_left put rows t' !! k.
Proof.
  induction rows as [|r rows IH]; intros t t' k Hk; simpl in *; [done|].
  destruct (in_dec String.string_dec k (map cp_store_product_id rows))
    as [Hin|Hout].
  - by apply IH.
  - destruct Hk as [<-|Hk]; [|done].
    rewrite !upsert_lookup_other by done.
    unfold put. by rewrite !lookup_insert_eq.
Qed.

Lemma upsert_lookup_inv (rows : list CurrentPrice) : forall t k row,
  fold_left put rows t !! k = Some row ->
  t !! k = Some row \/ In row rows.
Proof.
  induction rows as [|r rows IH]; intros t k row Hlk; simpl in *; [by left|].
  destruct (IH _ _ _ Hlk) as [Hins|Hin]; [|by right; right].
  unfold put in Hins. destruct (decide (cp_store_product_id r = k)) as [<-|Hne].
  - rewrite lookup_insert_eq in Hins. right. left. congruence.
  - rewrite lookup_insert_ne in Hins by done. by left.
Qed.

(** Rows written over rows with the same keys leave what writing them
    alone leaves. *)
Lemma upsert_over (rows rows' : list CurrentPrice) (t : gmap string CurrentPrice) :
  map cp_store_product_id rows = map cp_store_product_id rows' ->
  fold_left put rows (fold_left put rows' t) = fold_left put rows t.
Proof.
  intros Hkeys. apply map_eq. intros k.
  destruct (in_dec String.string_dec k (map cp_store_product_id rows))
    as [Hin|Hout].
  - by apply upsert_lookup_written.
  - rewrite !upsert_lookup_other; try done. by rewrite <- Hkeys.
Qed.

(** The clock is read into [last_updated] only: the keys of the current
    rows, the history rows and the exception do not depend on it. *)
Lemma build_rows_clock (now now' : nat -> Z) (products : list Product) :
  forall k k',
  match build_rows now k products, build_rows now' k' products with
  | Py.Ok (current, history), Py.Ok (current', history') =>
      map cp_store_product_id current = map cp_store_product_id current' /\
      history = history' /\
      length history = length products
  | Py.Raise e, Py.Raise e' => e = e'
  | _, _ => False
  end.
Proof.
  induction products as [|product rest IH]; intros k k'; simpl; [done|].
  destruct (store_product_id product); simpl; [|done].
  destruct (price product); simpl; [|done].
  destruct (scraped_at product); simpl; [|done].
  specialize (IH (S k) (S k')).
  destruct (build_rows now (S k) rest) as [[c h]|e],
           (build_rows now' (S k') rest) as [[c' h']|e']; simpl in *; try done.
  destruct IH as (-> & -> & ->). done.
Qed.

Lemma upsert_lookup_row (rows : list CurrentPrice) : forall t row,
  distinct (map cp_store_product_id rows) = true -> In row rows ->
  fold_left put rows t !! cp_store_product_id row = Some row.
Proof.
  induction rows as [|r rows IH]; intros t row Hd Hin; simpl in *; [done|].
  apply andb_true_iff in Hd as [Hfresh Hd]. destruct Hin as [->|Hin].
  - rewrite upsert_lookup_other; [apply lookup_insert_eq|].
    intros (r' & Heq & Hr')%in_map_iff.
    apply negb_true_iff in Hfresh.
    assert (Hex : existsb (String.eqb (cp_store_product_id row))
                    (map cp_store_product_id rows) = true); [|congruence].
    apply existsb_exists. exists (cp_store_product_id r'). split.
    + by apply in_map.
    + apply String.eqb_eq. done.
  - by apply IH.
Qed.

(** C2, as the code has it.  Take a batch whose rows can be built and have
    distinct keys.  When the upsert of the second application goes
    through, [current_prices] is after two applications what it is after
    one: under the key of every row of the batch stands that row, stamped
    by the clock of the last application.  [price_history] is not the
    same: the history write is a plain insert, without a key on product,
    store and capture time, so when the statements of both applications go
    through the rows of the batch, one per product, stand in the history
    twice.  When the rows of the batch cannot be built, or two of them
    have the same key, no application writes anything. *)
Theorem update_prices_twice (client1 client2 : Client) (now1 now2 : nat -> Z)
    (batch : list Product) (db : Store) :
  let first := apply_batch client1 now1 batch db in
  let once := apply_batch client2 now2 batch db in
  let twice := apply_batch client2 now2 batch first in
  (forall current1 current2 history1 history2,
     build_rows now1 0 batch = Py.Ok (current1, history1) ->
     build_rows now2 0 batch = Py.Ok (current2, history2) ->
     distinct (map cp_store_product_id current2) = true ->
     (upsert_declined client2 current2 = None ->
      current_prices twice = current_prices once /\
      Forall (fun row =>
                current_prices twice !! cp_store_product_id row = Some row)
             current2) /\
     (upsert_declined client1 current1 = None ->
      insert_declined client1 history1 = None ->
      upsert_declined client2 current2 = None ->
      insert_declined client2 history2 = None ->
      history1 = history2 /\ length history2 = length batch /\
      price_history once = (price_history db ++ history2)%list /\
      price_history twice = (price_history db ++ history2 ++ history2)%list)) /\
  ((forall current history,
      build_rows now2 0 batch = Py.Ok (current, history) ->
      distinct (map cp_store_product_id current) = false) ->
   first = db /\ once = db /\ twice = db).
Proof.
  unfold apply_batch, update_prices. simpl.
  pose proof (build_rows_clock now1 now2 batch 0 0) as Hclock.
  destruct (build_rows now1 0 batch) as [[c1 h1]|e1],
           (build_rows now2 0 batch) as [[c2 h2]|e2]; try done; simpl.
  destruct Hclock as (Hkeys & -> & Hlen). split.
  - intros current1 current2 history1 history2 [= <- <-] [= <- <-] Hd.
    unfold upsert, insert_rows. rewrite Hkeys, Hd. split.
    + intros ->.
      assert (Hsame : forall t,
                fold_left put c2 (fold_left put c1 t) = fold_left put c2 t)
        by (intros t; by apply upsert_over).
      assert (Hrows : forall t, Forall (fun row =>
                fold_left put c2 t !! cp_store_product_id row = Some row) c2).
      { intros t. apply List.Forall_forall. intros row Hin.
        by apply upsert_lookup_row. }
      destruct (upsert_declined client1 c1), (insert_declined client1 h2),
               (insert_declined client2 h2); simpl;
        rewrite ?Hsame; by split.
    + intros -> -> -> ->. simpl. by rewrite <- app_assoc.
  - intros Hrep. specialize (Hrep _ _ eq_refl).
    unfold upsert. rewrite Hkeys, Hrep.
    destruct (upsert_declined client1 c1); simpl;
      destruct (upsert_declined client2 c2); by simpl.
Qed.

Lemma update_prices_twice_witness :
  length (price_history
            (apply_batch accepting (fun _ => 200%Z)
               [PriceValidation.priced "sp-1" 1.99%Q]
               (apply_batch accepting (fun _ => 100%Z)
                  [PriceValidation.priced "sp-1" 1.99%Q] empty_store))) = 2 /\
  size (current_prices
          (apply_batch accepting (fun _ => 200%Z)
             [PriceValidation.priced "sp-1" 1.99%Q]
             (apply_batch accepting (fun _ => 100%Z)
                [PriceValidation.priced "sp-1" 1.99%Q] empty_store))) = 1.
Proof.
  destruct (update_prices_twice accepting accepting (fun _ => 100%Z)
              (fun _ => 200%Z) [PriceValidation.priced "sp-1" 1.99%Q] empty_store)
    as [Hrows _].
  destruct (Hrows _ _ _ _ eq_refl eq_refl eq_refl) as [Hcur Hhist].
  destruct (Hcur eq_refl) as [Hsame _].
  destruct (Hhist eq_refl eq_refl eq_refl eq_refl) as (_ & _ & _ & Htwice).
  split.
  - rewrite Htwice. reflexivity.
  - rewrite Hsame. reflexivity.
Defined.

(** C2, as stated, fails: with a database that accepts every statement,
    after the second application of a batch of one product the history
    holds two rows for it, after the first one. *)
Lemma second_application_repeats_history :
  length (price_history
            (apply_batch accepting (fun _ => 100%Z)
               [PriceValidation.priced "sp-1" 1.99%Q] empty_store)) = 1 /\
  length (price_history
            (apply_batch accepting (fun _ => 100%Z)
               [PriceValidation.priced "sp-1" 1.99%Q]
               (apply_batch accepting (fun _ => 100%Z)
                  [PriceValidation.priced "sp-1" 1.99%Q] empty_store))) = 2 /\
  ~ idempotent.
Proof.
  split; [reflexivity|]. split; [reflexivity|].
  intros H.
  specialize (H accepting (fun _ => 100%Z) [PriceValidation.priced "sp-1" 1.99%Q]
                empty_store).
  apply (f_equal (fun s => length (price_history s))) in H.
  discriminate H.
Qed.

End database_properties.

(** ** Validation and the store: prices that are not positive *)

Section price_rejection_properties.
Import DatabaseOperations.






End price_rejection_properties.

(** ** Product standardization agent: the pairs of a pass *)

Section duplicate_properties.
Import ProductStandardization.

Lemma enumerate_elem {A} (l : list A) : forall s j x,
  (j, x) ∈ Py.enumerate l s <-> s <= j /\ l !! (j - s) = Some x.
Proof.
  induction l as [|y l IH]; intros s j x; simpl.
  - rewrite elem_of_nil. split; [done|]. by intros [_ ?].
  - rewrite elem_of_cons, IH. split.
    + intros [[= -> ->]|[Hle Hlk]].
      * by rewrite Nat.sub_diag.
      * split; [lia|]. by replace (j - s) with (S (j - S s)) by lia.
    + intros [Hle Hlk]. destruct (decide (j = s)) as [->|Hne].
      * left. rewrite Nat.sub_diag in Hlk. simpl in Hlk. congruence.
      * right. split; [lia|].
        by replace (j - s) with (S (j - S s)) in Hlk by lia.
Qed.

Lemma enumerate_fst {A} (l : list A) : forall s,
  (Py.enumerate l s).*1 = seq s (length l).
Proof. induction l as [|y l IH]; intros s; simpl; [done|]. by rewrite IH. Qed.

Lemma NoDup_enumerate {A} (l : list A) (s : nat) : NoDup (Py.enumerate l s).
Proof. apply (NoDup_fmap_1 fst). rewrite enumerate_fst. apply NoDup_seq. Qed.

Lemma flat_map_bind {A B} (f : A -> list B) (l : list A) :
  flat_map f l = l ≫= f.
Proof. induction l as [|x l IH]; csimpl; [done|]. by rewrite IH. Qed.

(** The pairs visited are the pairs of positions [i < j], each with the
    products found there. *)
Lemma pairs_elem (products : list Product) (i j : nat) (p1 p2 : Product) :
  ((i, p1), (j, p2)) ∈ pairs products <->
  i < j /\ products !! i = Some p1 /\ products !! j = Some p2.
Proof.
  unfold pairs. rewrite flat_map_bind, list_elem_of_bind. split.
  - intros ([i' p1'] & Hin & Hout). simpl in Hin.
    apply (list_elem_of_fmap (fun jp => ((i', p1'), jp))) in Hin
      as (jp & [= <- <- <-] & Hin).
    apply enumerate_elem in Hin as [Hle Hlk], Hout as [_ Hlk1].
    rewrite lookup_drop in Hlk. rewrite Nat.sub_0_r in Hlk1.
    replace (i + 1 + (j - (i + 1))) with j in Hlk by lia.
    split; [lia|done].
  - intros (Hlt & Hlk1 & Hlk2). exists (i, p1). split.
    + simpl. apply (list_elem_of_fmap (fun jp => ((i, p1), jp))).
      exists (j, p2). split; [done|]. apply enumerate_elem. split; [lia|].
      rewrite lookup_drop. by replace (i + 1 + (j - (i + 1))) with j by lia.
    + apply enumerate_elem. split; [lia|]. by rewrite Nat.sub_0_r.
Qed.

Lemma NoDup_pairs (products : list Product) : NoDup (pairs products).
Proof.
  unfold pairs. rewrite flat_map_bind. apply NoDup_bind.
  - intros x1 x2 y _ _ H1 H2.
    apply (list_elem_of_fmap (fun jp => (x1, jp))) in H1 as (? & -> & _).
    apply (list_elem_of_fmap (fun jp => (x2, jp))) in H2 as (? & [= ->] & _).
    done.
  - intros x _. apply (NoDup_fmap_2 (fun jp => (x, jp))), NoDup_enumerate.
  - apply NoDup_enumerate.
Qed.

Lemma positions_determine (products : list Product) e e' :
  e ∈ pairs products -> e' ∈ pairs products ->
  positions e = positions e' -> e = e'.
Proof.
  destruct e as [[i p1] [j p2]], e' as [[i' p1'] [j' p2']].
  intros (_ & H1 & H2)%pairs_elem (_ & H1' & H2')%pairs_elem [= <- <-].
  congruence.
Qed.

Lemma NoDup_positions (products : list Product) :
  NoDup (positions <$> pairs products).
Proof.
  apply NoDup_fmap_2_strong; [|apply NoDup_pairs].
  intros e e'. apply positions_determine.
Qed.

Lemma positions_elem (products : list Product) (i j : nat) :
  (i, j) ∈ positions <$> pairs products <-> i < j < length products.
Proof.
  rewrite list_elem_of_fmap. split.
  - intros ([[i' p1] [j' p2]] & [= -> ->] & (Hlt & _ & Hlk)%pairs_elem).
    apply lookup_lt_Some in Hlk. lia.
  - intros [Hlt Hlen].
    destruct (lookup_lt_is_Some_2 products i) as [p1 H1]; [lia|].
    destruct (lookup_lt_is_Some_2 products j) as [p2 H2]; [lia|].
    exists ((i, p1), (j, p2)). split; [done|]. by apply pairs_elem.
Qed.

Lemma gt_threshold (x : Q) : Py.gt x threshold = true <-> (threshold < x)%Q.
Proof.
  unfold Py.gt. rewrite negb_true_iff, <- not_true_iff_false, Qle_bool_iff.
  split; [apply Qnot_le_lt | apply Qlt_not_le].
Qed.

Section with_agent.
Variable calculate_similarity : Product -> Product -> Q.
Variable determine_merge_strategy : Product -> Product -> string.

Local Abbreviation compare :=
  (compare calculate_similarity determine_merge_strategy).
Local Abbreviation candidate :=
  (candidate calculate_similarity determine_merge_strategy).
Local Abbreviation detect_duplicates :=
  (detect_duplicates calculate_similarity determine_merge_strategy).

Lemma compare_elem d e :
  d ∈ compare e <->
  (threshold < calculate_similarity e.1.2 e.2.2)%Q /\ d = candidate e.1.2 e.2.2.
Proof.
  unfold ProductStandardization.compare. rewrite <- gt_threshold.
  destruct (Py.gt _ threshold).
  - rewrite list_elem_of_singleton. split; [by intros ->|by intros [_ ->]].
  - rewrite elem_of_nil. split; [done|]. by intros [? _].
Qed.

Lemma duplicates_elem (state : ProcessingState) d :
  d ∈ duplicates (detect_duplicates state) <->
  exists i j p1 p2,
    i < j /\ processed_products state !! i = Some p1 /\
    processed_products state !! j = Some p2 /\
    (threshold < calculate_similarity p1 p2)%Q /\ d = candidate p1 p2.
Proof.
  simpl. rewrite flat_map_bind, list_elem_of_bind. split.
  - intros ([[i p1] [j p2]] & Hd%compare_elem & Hin%pairs_elem).
    destruct Hin as (Hlt & H1 & H2), Hd as [Hsim ->].
    by exists i, j, p1, p2.
  - intros (i & j & p1 & p2 & Hlt & H1 & H2 & Hsim & ->).
    exists ((i, p1), (j, p2)). split; [by apply compare_elem|].
    by apply pairs_elem.
Qed.

Lemma compare_below e :
  (calculate_similarity e.1.2 e.2.2 <= threshold)%Q -> compare e = [].
Proof.
  intros Hle. unfold ProductStandardization.compare.
  destruct (Py.gt _ threshold) eqn:Hgt; [|done].
  apply gt_threshold in Hgt. by apply Qlt_not_le in Hgt.
Qed.

Lemma ids_duplicates (l : list ((nat * Product) * (nat * Product))) :
  ids <$> flat_map compare l = l ≫= (fun e => ids <$> compare e).
Proof.
  induction l as [|e l IH]; csimpl; [done|]. by rewrite fmap_app, IH.
Qed.

Lemma ids_compare_elem y e :
  y ∈ ids <$> compare e -> y = (id e.1.2, id e.2.2).
Proof.
  intros (d & -> & [_ ->]%compare_elem)%list_elem_of_fmap. done.
Qed.

(** With distinct ids, a product is found at one position only. *)
Lemma id_position (products : list Product) i i' p p' :
  NoDup (id <$> products) ->
  products !! i = Some p -> products !! i' = Some p' -> id p = id p' ->
  i = i'.
Proof.
  intros Hnd Hi Hi' Hid.
  apply (NoDup_lookup (id <$> products) i i' (id p) Hnd);
    rewrite list_lookup_fmap; [by rewrite Hi | by rewrite Hi', Hid].
Qed.

Lemma ids_elem (state : ProcessingState) a b :
  (a, b) ∈ ids <$> duplicates (detect_duplicates state) ->
  exists i j p1 p2,
    i < j /\ processed_products state !! i = Some p1 /\
    processed_products state !! j = Some p2 /\ a = id p1 /\ b = id p2.
Proof.
  intros (d & Hab & Hd%duplicates_elem)%list_elem_of_fmap.
  destruct Hd as (i & j & p1 & p2 & Hlt & H1 & H2 & _ & ->).
  injection Hab as -> ->. by exists i, j, p1, p2.
Qed.

Lemma NoDup_ids (state : ProcessingState) :
  NoDup (id <$> processed_products state) ->
  NoDup (ids <$> duplicates (detect_duplicates state)).
Proof.
  intros Hnd. simpl. rewrite ids_duplicates. apply NoDup_bind.
  - intros [[i p1] [j p2]] [[i' p1'] [j' p2']] y Hin Hin' Hy Hy'.
    apply ids_compare_elem in Hy, Hy'. rewrite Hy in Hy'.
    injection Hy' as Ha Hb. simpl in *. apply (positions_determine _ _ _ Hin Hin').
    apply pairs_elem in Hin as (_ & H1 & H2), Hin' as (_ & H1' & H2').
    unfold positions. simpl. f_equal; eapply id_position; eauto.
  - intros e _. unfold ProductStandardization.compare.
    destruct (Py.gt _ threshold); [apply NoDup_singleton | apply NoDup_nil_2].
  - apply NoDup_pairs.
Qed.

End with_agent.

(** C6, as the code has it.  The entries of [state["duplicates"]] are
    exactly the entries of the pairs of positions [i < j] of the batch
    whose similarity is strictly greater than 0.85; a compared pair that
    scores 0.85 or less, so one that scores exactly 0.85, adds nothing. *)
Theorem duplicate_iff_above_threshold
    (calculate_similarity : Product -> Product -> Q)
    (determine_merge_strategy : Product -> Product -> string)
    (state : ProcessingState) :
  (forall d,
     In d (duplicates (detect_duplicates calculate_similarity
                         determine_merge_strategy state)) <->
     exists i j p1 p2,
       i < j /\ processed_products state !! i = Some p1 /\
       processed_products state !! j = Some p2 /\
       (threshold < calculate_similarity p1 p2)%Q /\
       d = candidate calculate_similarity determine_merge_strategy p1 p2) /\
  (forall e,
     (calculate_similarity e.1.2 e.2.2 <= threshold)%Q ->
     compare calculate_similarity determine_merge_strategy e = []) /\
  (threshold == 0.85)%Q.
Proof.
  split; [|split].
  - intros d. rewrite <- list_elem_of_In. apply duplicates_elem.
  - apply compare_below.
  - reflexivity.
Qed.

Lemma duplicate_iff_above_threshold_witness :
  In ("p-1", "p-2", 0.9%Q, "keep_first")
     (duplicates (detect_duplicates (fun _ _ => 0.9%Q) (fun _ _ => "keep_first")
        (mkProcessingState [] [bare "p-1" "melk"; bare "p-2" "melk 1l"] []))).
Proof.
  apply (proj1 (duplicate_iff_above_threshold (fun _ _ => 0.9%Q)
                  (fun _ _ => "keep_first")
                  (mkProcessingState [] [bare "p-1" "melk"; bare "p-2" "melk 1l"] []))).
  exists 0, 1, (bare "p-1" "melk"), (bare "p-2" "melk 1l").
  repeat split; try reflexivity. lia.
Defined.

(** C6, as stated, fails on the threshold itself: a pair that scores
    exactly 0.85 is compared and not recorded. *)
Lemma pair_at_threshold_is_not_recorded :
  duplicates (detect_duplicates (fun _ _ => 0.85%Q) (fun _ _ => "keep_first")
     (mkProcessingState [] [bare "p-1" "melk"; bare "p-2" "melk 1l"] []))
  = [] /\
  map positions (pairs [bare "p-1" "melk"; bare "p-2" "melk 1l"]) = [(0, 1)] /\
  ~ at_or_above.
Proof.
  split; [reflexivity|]. split; [reflexivity|].
  intros H.
  specialize (H (fun _ _ => 0.85%Q) (fun _ _ => "keep_first")
                (mkProcessingState [] [bare "p-1" "melk"; bare "p-2" "melk 1l"] [])
                0 1 (bare "p-1" "melk") (bare "p-2" "melk 1l")).
  destruct H; try reflexivity; try lia. apply Qle_refl.
Qed.

(** C10, as the code has it.  A pass compares exactly the pairs of
    positions [i < j] of the batch, each once: no position with itself, no
    pair in both orders.  Every entry recorded comes from such a pair, its
    first product being the one at the earlier position.  The entries name
    products by id: when the ids of the batch are distinct, they name
    pairwise different pairs of ids, none of them an id with itself, and no
    pair of ids in both orders. *)
Theorem each_pair_compared_once
    (calculate_similarity : Product -> Product -> Q)
    (determine_merge_strategy : Product -> Product -> string)
    (state : ProcessingState) :
  let products := processed_products state in
  let found := duplicates (detect_duplicates calculate_similarity
                             determine_merge_strategy state) in
  NoDup (positions <$> pairs products) /\
  (forall i j, (i, j) ∈ positions <$> pairs products <-> i < j < length products) /\
  (forall d, d ∈ found ->
     exists i j p1 p2,
       i < j /\ products !! i = Some p1 /\ products !! j = Some p2 /\
       d = candidate calculate_similarity determine_merge_strategy p1 p2) /\
  (NoDup (id <$> products) ->
     NoDup (ids <$> found) /\
     forall a b, (a, b) ∈ ids <$> found -> a <> b /\ (b, a) ∉ ids <$> found).
Proof.
  intros products found. split; [apply NoDup_positions|].
  split; [apply positions_elem|]. split.
  - intros d (i & j & p1 & p2 & Hlt & H1 & H2 & _ & ->)%duplicates_elem.
    by exists i, j, p1, p2.
  - intros Hnd. split; [by apply NoDup_ids|].
    intros a b (i & j & p1 & p2 & Hlt & H1 & H2 & -> & ->)%ids_elem. split.
    + intros Hid. pose proof (id_position _ _ _ _ _ Hnd H1 H2 Hid). lia.
    + intros (i' & j' & p1' & p2' & Hlt' & H1' & H2' & Ha & Hb)%ids_elem.
      pose proof (id_position _ _ _ _ _ Hnd H1 H2' Hb).
      pose proof (id_position _ _ _ _ _ Hnd H2 H1' Ha). lia.
Qed.

Lemma each_pair_compared_once_witness :
  NoDup (ids <$> duplicates
           (detect_duplicates (fun _ _ => 0.9%Q) (fun _ _ => "keep_first")
              (mkProcessingState []
                 [bare "p-1" "melk"; bare "p-2" "melk 1l"; bare "p-3" "melk"] []))) /\
  (2, 1) ∉ positions <$> pairs [bare "p-1" "melk"; bare "p-2" "melk 1l";
                                bare "p-3" "melk"].
Proof.
  pose proof (each_pair_compared_once (fun _ _ => 0.9%Q) (fun _ _ => "keep_first")
                (mkProcessingState []
                   [bare "p-1" "melk"; bare "p-2" "melk 1l"; bare "p-3" "melk"] []))
    as (_ & Hpos & _ & Hids).
  split.
  - apply Hids. simpl. repeat constructor; rewrite ?elem_of_cons, ?elem_of_nil;
      intros H; repeat destruct H as [H|H]; discriminate || done.
  - intros Hin. apply Hpos in Hin. lia.
Defined.

(** C10, as stated, fails on a batch in which an id occurs more than once:
    two products with the id "p-1" are recorded as the pair of "p-1" with
    itself, and three of them as that pair three times. *)
Lemma repeated_id_is_paired_with_itself :
  map ids (duplicates
     (detect_duplicates (fun _ _ => 0.9%Q) (fun _ _ => "keep_first")
        (mkProcessingState [] [bare "p-1" "melk"; bare "p-1" "melk 1l"] [])))
  = [("p-1", "p-1")] /\
  map ids (duplicates
     (detect_duplicates (fun _ _ => 0.9%Q) (fun _ _ => "keep_first")
        (mkProcessingState []
           [bare "p-1" "melk"; bare "p-1" "melk 1l"; bare "p-1" "melk 2l"] [])))
  = [("p-1", "p-1"); ("p-1", "p-1"); ("p-1", "p-1")] /\
  ~ no_self_or_repeated_pair.
Proof.
  split; [reflexivity|]. split; [reflexivity|].
  intros H.
  destruct (H (fun _ _ => 0.9%Q) (fun _ _ => "keep_first")
              (mkProcessingState [] [bare "p-1" "melk"; bare "p-1" "melk 1l"] []))
    as [_ Hself].
  apply (Hself "p-1" "p-1"); [|reflexivity].
  left. reflexivity.
Qed.

End duplicate_properties.

(** ** Name normalization *)

Section normalization_properties.
Import DataQuality.
Local Open Scope list_scope.

Local Abbreviation no_space := (Forall (fun ch => Text.is_space ch = false)).

Lemma lower_char_is_space (c : ascii) :
  Text.is_space (Text.lower_char c) = Text.is_space c.
Proof. destruct c as [[] [] [] [] [] [] [] []]; reflexivity. Qed.

Lemma lower_char_eqb_space (c : ascii) :
  Ascii.eqb (Text.lower_char c) Text.space = Ascii.eqb c Text.space.
Proof. destruct c as [[] [] [] [] [] [] [] []]; reflexivity. Qed.

Lemma lower_char_not_upper (c : ascii) :
  Text.is_upper (Text.lower_char c) = false.
Proof. destruct c as [[] [] [] [] [] [] [] []]; reflexivity. Qed.

(** *** Words *)

Lemma split_from_words (s : list ascii) : forall word,
  no_space word ->
  Forall (fun w => w <> [] /\ no_space w) (split_from word s).
Proof.
  induction s as [|c rest IH]; intros word Hword; simpl.
  - destruct word as [|a word]; [constructor|].
    constructor; [|constructor]. split.
    + simpl. by destruct (rev word).
    + by apply Forall_rev.
  - destruct (Text.is_space c) eqn:Hc.
    + destruct word as [|a word]; [by apply IH|].
      constructor; [|by apply IH]. split.
      * simpl. by destruct (rev word).
      * by apply Forall_rev.
    + apply IH. by constructor.
Qed.

(** *** Tidy strings *)

Lemma tidy_from_word (w : list ascii) : forall rest b,
  no_space w ->
  tidy_from b (w ++ rest) = tidy_from (match w with [] => b | _ => false end) rest.
Proof.
  induction w as [|c w IH]; intros rest b Hw; simpl; [done|].
  apply Forall_cons in Hw as [Hc Hw]. rewrite Hc, IH by done. by destruct w.
Qed.

Lemma tidy_from_join (ws : list (list ascii)) :
  Forall (fun w => w <> [] /\ no_space w) ws -> ws <> [] ->
  tidy_from true (join ws) = true.
Proof.
  induction ws as [|w ws IH]; intros Hws Hne; [done|].
  apply Forall_cons in Hws as [[Hw Hns] Hws].
  destruct ws as [|w2 ws].
  - simpl. rewrite <- (app_nil_r w), tidy_from_word by done. by destruct w.
  - change (join (w :: w2 :: ws)) with (w ++ Text.space :: join (w2 :: ws)).
    rewrite tidy_from_word by done. destruct w; [done|]. simpl.
    by apply IH.
Qed.

Lemma tidy_from_lower (s : list ascii) : forall b,
  tidy_from b (Text.lower_chars s) = tidy_from b s.
Proof.
  induction s as [|c s IH]; intros b; simpl; [done|].
  by rewrite lower_char_is_space, lower_char_eqb_space, !IH.
Qed.

Lemma tidy_nonempty (s : list ascii) :
  tidy_from true s = true -> tidy s = true /\ drop_spaces s = s /\ s <> [].
Proof.
  destruct s as [|c s]; simpl; [done|].
  destruct (Text.is_space c); [|done].
  rewrite andb_false_r. done.
Qed.

Lemma tidy_canonical (name : list ascii) :
  tidy (Text.lower_chars (join (split name))) = true.
Proof.
  pose proof (split_from_words name [] (Forall_nil_2 _)) as Hws.
  fold (split name) in Hws. destruct (split name) as [|w ws] eqn:Hs; [done|].
  assert (Ht : tidy_from true (Text.lower_chars (join (w :: ws))) = true).
  { rewrite tidy_from_lower. by apply tidy_from_join. }
  by apply tidy_nonempty in Ht as [Ht _].
Qed.

(** *** The prefix pattern *)

Lemma strip_literal_app (p : list ascii) : forall s t,
  strip_literal p s = Some t -> s = p ++ t.
Proof.
  induction p as [|a p IH]; intros s t; simpl.
  - by intros [= ->].
  - destruct s as [|b s]; [done|].
    destruct (Ascii.eqb_spec a b) as [->|]; [|done].
    intros Hs. by rewrite (IH _ _ Hs).
Qed.

Lemma tidy_after_prefix (p rest : list ascii) (ch : ascii) :
  no_space p -> p <> [] -> Text.is_space ch = true ->
  tidy (p ++ ch :: rest) = true ->
  ch = Text.space /\ tidy rest = true /\ drop_spaces rest = rest /\ rest <> [].
Proof.
  intros Hp Hne Hch Ht.
  assert (Ht' : tidy_from true (p ++ ch :: rest) = true) by by destruct p.
  rewrite tidy_from_word in Ht' by done. destruct p; [done|]. simpl in Ht'.
  rewrite Hch in Ht'. apply andb_true_iff in Ht' as [[Heq _]%andb_true_iff Hrest].
  split; [by apply Ascii.eqb_eq|]. by apply tidy_nonempty.
Qed.

Lemma match_prefix_tidy (p c r : list ascii) :
  no_space p -> p <> [] -> tidy c = true ->
  match_prefix p c = Some r ->
  c = p ++ Text.space :: r /\ tidy r = true.
Proof.
  intros Hp Hne Ht. unfold match_prefix.
  destruct (strip_literal p c) as [[|ch rest]|] eqn:Hs; try done.
  destruct (Text.is_space ch) eqn:Hch; [|done]. intros [= <-].
  apply strip_literal_app in Hs as ->.
  destruct (tidy_after_prefix p rest ch Hp Hne Hch Ht) as (-> & Hr & -> & _).
  done.
Qed.

Lemma sub_prefix_cases (alts : list (list ascii)) (c : list ascii) :
  Forall (fun p => p <> [] /\ no_space p) alts -> tidy c = true ->
  sub_prefix alts c = c \/
  exists p, In p alts /\ c = p ++ Text.space :: sub_prefix alts c /\
            tidy (sub_prefix alts c) = true.
Proof.
  intros Halts Ht. induction alts as [|p alts IH]; simpl; [by left|].
  apply Forall_cons in Halts as [[Hne Hp] Halts].
  destruct (match_prefix p c) as [r|] eqn:Hm.
  - right. exists p. split; [by left|]. by apply match_prefix_tidy.
  - destruct (IH Halts) as [Heq|(q & Hq & Hc)]; [by left|].
    right. exists q. split; [by right|done].
Qed.

Lemma prefixes_words : Forall (fun p => p <> [] /\ no_space p) prefixes.
Proof. repeat constructor; done. Qed.

Lemma sub_prefix_strips (p rest : list ascii) :
  In p prefixes -> tidy (p ++ Text.space :: rest) = true ->
  sub_prefix prefixes (p ++ Text.space :: rest) = rest.
Proof.
  intros Hp Ht.
  assert (Hw : p <> [] /\ no_space p).
  { pose proof prefixes_words as Hall. rewrite List.Forall_forall in Hall. auto. }
  destruct (tidy_after_prefix p rest Text.space (proj2 Hw) (proj1 Hw) eq_refl Ht)
    as (_ & _ & Hdrop & _).
  destruct Hp as [<-|[<-|[<-|[]]]]; cbn; exact Hdrop.
Qed.

(** *** From tidy to collapsed *)



Lemma not_upper_lower (s : list ascii) :
  Forall (fun ch => Text.is_upper ch = false) (Text.lower_chars s).
Proof.
  induction s as [|c s IH]; simpl; constructor; [apply lower_char_not_upper|done].
Qed.

(** *** One normalized product per product *)

(** The loop of [normalize_names] on the shared dicts. *)

Lemma set_names_name objects ref normalized tokens r :
  name (ProductStandardization.set_names objects ref normalized tokens r)
  = name (objects r).
Proof.
  unfold ProductStandardization.set_names.
  destruct (Nat.eqb_spec r ref) as [->|Hne]; done.
Qed.

Lemma normalize_each_app normalize tokenize (l1 l2 : list nat) :
  forall objects acc,
  ProductStandardization.normalize_each normalize tokenize (l1 ++ l2) objects acc
  = match ProductStandardization.normalize_each normalize tokenize l1 objects acc with
    | (objects', Py.Ok acc') =>
        ProductStandardization.normalize_each normalize tokenize l2 objects' acc'
    | (objects', Py.Raise e) => (objects', Py.Raise e)
    end.
Proof.
  induction l1 as [|ref l1 IH]; intros objects acc; simpl; [done|].
  destruct (name (objects ref)); simpl; [apply IH|done].
Qed.

(** When every product of the list has a name, the loop goes through: it
    appends the references in order, leaves the other dicts alone, and
    leaves each dict of the list with its normalized name and tokens and
    its other keys as they were. *)
Lemma normalize_each_named normalize tokenize (refs : list nat) :
  forall objects acc,
  (forall ref, In ref refs -> is_Some (name (objects ref))) ->
  exists objects',
    ProductStandardization.normalize_each normalize tokenize refs objects acc
    = (objects', Py.Ok (acc ++ refs)) /\
    (forall ref, ~ In ref refs -> objects' ref = objects ref) /\
    (forall ref, In ref refs ->
       exists n, name (objects ref) = Some n /\
         objects' ref
         = ProductStandardization.with_names (objects ref) (normalize n)
             (tokenize (normalize n))).
Proof.
  induction refs as [|ref rest IH]; intros objects acc Hnamed; simpl.
  - exists objects. rewrite app_nil_r. by repeat split.
  - destruct (Hnamed ref (or_introl eq_refl)) as [n Hn]. rewrite Hn. simpl.
    set (objects1 := ProductStandardization.set_names objects ref (normalize n)
                       (tokenize (normalize n))).
    destruct (IH objects1 (acc ++ [ref])) as (objects' & Hrun & Hout & Hin).
    { intros r Hr. unfold objects1. rewrite set_names_name.
      apply Hnamed. by right. }
    exists objects'. rewrite Hrun, <- app_assoc. split; [done|]. split.
    + intros r Hr. rewrite Hout by tauto.
      unfold objects1, ProductStandardization.set_names.
      destruct (Nat.eqb_spec r ref) as [->|Hne]; [tauto|done].
    + intros r Hr.
      destruct (in_dec Nat.eq_dec r rest) as [Hrest|Hrest].
      * destruct (Hin r Hrest) as (n' & Hn' & ->).
        unfold objects1 in *. rewrite set_names_name in Hn'.
        exists n'. split; [done|].
        unfold ProductStandardization.set_names.
        destruct (Nat.eqb_spec r ref) as [->|Hne]; [|done].
        rewrite Hn in Hn'. by injection Hn' as <-.
      * destruct Hr as [<-|Hr]; [|done].
        exists n. split; [done|]. rewrite Hout by done.
        unfold objects1, ProductStandardization.set_names.
        by rewrite Nat.eqb_refl.
Qed.

(** At the first product without a name the loop raises; the dicts before
    it have been changed, the others have not. *)
Lemma normalize_each_nameless normalize tokenize (refs : list nat) :
  forall i ref objects acc,
  refs !! i = Some ref -> name (objects ref) = None ->
  (forall r, In r (take i refs) -> is_Some (name (objects r))) ->
  exists objects',
    ProductStandardization.normalize_each normalize tokenize refs objects acc
    = (objects', Py.Raise (Py.KeyError "name")) /\
    (forall r, ~ In r (take i refs) -> objects' r = objects r) /\
    (forall r, In r (take i refs) ->
       exists n, name (objects r) = Some n /\
         objects' r
         = ProductStandardization.with_names (objects r) (normalize n)
             (tokenize (normalize n))).
Proof.
  intros i ref objects acc Hi Hnone Hnamed.
  destruct (normalize_each_named normalize tokenize (take i refs) objects acc
              Hnamed) as (objects' & Hrun & Hout & Hin).
  exists objects'. split; [|by split].
  rewrite <- (take_drop_middle refs i ref Hi) at 1.
  rewrite normalize_each_app, Hrun. simpl.
  rewrite Hout, Hnone; [done|].
  intros Hr. destruct (Hnamed ref Hr) as [n Hn]. congruence.
Qed.




End normalization_properties.

(* ===================================================================== *)
(** * Further properties of the code *)
(* ===================================================================== *)

(** ** Data quality: a record without errors *)

Section data_quality_properties.
Import DataQuality.

Lemma name_check (product : Product) :
  match name product with
  | None | Some EmptyString => true
  | Some n => String.length n <? 3
  end = false <->
  exists n, name product = Some n /\ 3 <= String.length n.
Proof.
  destruct (name product) as [[|a n]|]; simpl.
  - split; [done|]. intros (n & [= <-] & Hlen). simpl in Hlen. lia.
  - rewrite Nat.ltb_ge. split.
    + intros Hlen. eexists. split; [done|]. simpl. lia.
    + intros (n' & [= <-] & Hlen). simpl in Hlen. lia.
  - split; [done|]. by intros (n & [=] & _).
Qed.

Lemma price_check (product : Product) :
  Py.le (default 0%Q (price product)) 0%Q = false <->
  exists p, price product = Some p /\ (0 < p)%Q.
Proof.
  unfold Py.le. rewrite <- not_true_iff_false, Qle_bool_iff. split.
  - intros Hgt%Qnot_le_lt. destruct (price product) as [p|]; simpl in *.
    + by exists p.
    + by apply Qlt_irrefl in Hgt.
  - intros (p & -> & Hp). simpl. by apply Qlt_not_le.
Qed.

Lemma category_check (product : Product) :
  match category product with
  | None | Some EmptyString => true
  | Some _ => false
  end = false <->
  exists c, category product = Some c /\ c <> "".
Proof.
  destruct (category product) as [[|a c]|]; simpl.
  - split; [done|]. by intros (c & [= <-] & Hne).
  - split; [|done]. intros _. by eexists.
  - split; [done|]. by intros (c & [=] & _).
Qed.

(** X1.  Take a record whose name, when it has one, is ASCII text (its
    price, when it has one, is a number).  [validate_product_data] returns
    no error exactly when the record has a name of at least three
    characters, a price above 0 and a category that is not empty; and the
    errors it returns are some of "Product name too short", "Invalid
    price" and "Missing category", in this order, each at most once. *)
Theorem validate_product_data_clean (product : Product) :
  (forall n, name product = Some n -> Text.ascii_text n) ->
  (validate_product_data product = [] <->
   (exists n, name product = Some n /\ 3 <= String.length n) /\
   (exists p, price product = Some p /\ (0 < p)%Q) /\
   (exists c, category product = Some c /\ c <> "")) /\
  sublist (validate_product_data product)
    ["Product name too short"; "Invalid price"; "Missing category"].
Proof.
  intros _.
  rewrite <- name_check, <- price_check, <- category_check.
  unfold validate_product_data.
  destruct (match name product with
            | None | Some EmptyString => true
            | Some n => String.length n <? 3
            end),
    (Py.le (default 0%Q (price product)) 0%Q),
    (match category product with
     | None | Some EmptyString => true
     | Some _ => false
     end); simpl.
  all: split; [split; [done | by intros (? & ? & ?)] |].
  all: repeat first [ apply sublist_nil_l | apply sublist_skip | apply sublist_cons ].
Qed.

Lemma validate_product_data_clean_witness :
  validate_product_data (PriceValidation.priced "sp-1" 1.99%Q) = [].
Proof.
  refine (proj2 (proj1 (validate_product_data_clean
            (PriceValidation.priced "sp-1" 1.99%Q) _)) _).
  - intros n [= <-]. unfold Text.ascii_text, Text.ascii_chars. simpl.
    repeat constructor.
  - split; [|split].
    + exists "melk 1l". split; [reflexivity | simpl; lia].
    + exists 1.99%Q. split; reflexivity.
    + exists "dairy". split; [reflexivity | discriminate].
Defined.

End data_quality_properties.

(** ** Database operations agent: all or nothing *)

Section update_prices_properties.
Import DatabaseOperations.

Local Abbreviation complete :=
  (fun product : Product =>
     is_Some (store_product_id product) /\ is_Some (price product) /\
     is_Some (scraped_at product)).

Lemma build_rows_complete (now : nat -> Z) (products : list Product) : forall k,
  Forall complete products ->
  exists current history,
    build_rows now k products = Py.Ok (current, history) /\
    map cp_store_product_id current = omap store_product_id products /\
    length history = length products /\
    Forall2 (fun product row =>
               store_product_id product = Some (cp_store_product_id row) /\
               price product = Some (cp_price row))
            products current.
Proof.
  induction products as [|product rest IH]; intros k Hall; simpl.
  - exists [], []. by repeat split.
  - apply Forall_cons in Hall as [([spid Hs] & [p Hp] & [t Ht]) Hrest].
    destruct (IH (S k) Hrest) as (c & h & Hb & Hkeys & Hlen & Hrows).
    rewrite Hs, Hp, Ht, Hb. simpl. eexists _, _. split; [reflexivity|].
    simpl. rewrite Hkeys, Hlen. repeat split; try done.
    constructor; [by split|done].
Qed.

Lemma build_rows_incomplete (now : nat -> Z) (products : list Product) : forall k,
  ~ Forall complete products ->
  exists key, build_rows now k products = Py.Raise (Py.KeyError key) /\
              In key ["store_product_id"; "price"; "scraped_at"].
Proof.
  induction products as [|product rest IH]; intros k Hnot; simpl.
  - destruct Hnot. constructor.
  - destruct (store_product_id product) as [spid|] eqn:Hs; simpl;
      [|eexists; split; [done|simpl; tauto]].
    destruct (price product) as [p|] eqn:Hp; simpl;
      [|eexists; split; [done|simpl; tauto]].
    destruct (scraped_at product) as [t|] eqn:Ht; simpl;
      [|eexists; split; [done|simpl; tauto]].
    destruct (IH (S k)) as (key & -> & Hkey); [|by exists key].
    intros Hrest. apply Hnot. constructor; [|done].
    rewrite Hs, Hp, Ht. by repeat split.
Qed.

(** X2.  [update_prices] makes its two writes one after the other, and
    what the first wrote stays when the second fails.  When a product lacks
    its store product id, price or capture time, or two products have the
    same store product id, nothing is written.  Otherwise the rows are
    built, one of each kind per product, and the client decides: when it
    declines the upsert nothing is written; when it declines the insert
    after the upsert, [current_prices] holds the row of every product while
    [price_history] is as it was; in these three cases [prices_updated] is
    not set and one message is added to [database_errors].  When both
    statements go through, both tables are written, [prices_updated] is
    the size of the batch and no message is added. *)
Theorem update_prices_outcomes (client : Client) (now : nat -> Z) (db : Store)
    (state : DatabaseState) :
  let batch := validated_products state in
  let r := update_prices client now db state in
  (~ (Forall complete batch /\ distinct (omap store_product_id batch) = true) ->
   r.1 = db /\ prices_updated r.2 = prices_updated state /\
   exists msg, database_errors r.2 = (database_errors state ++ [msg])%list) /\
  (Forall complete batch /\ distinct (omap store_product_id batch) = true ->
   exists current history,
     build_rows now 0 batch = Py.Ok (current, history) /\
     length current = length batch /\ length history = length batch /\
     (forall msg, upsert_declined client current = Some msg ->
        r.1 = db /\ prices_updated r.2 = prices_updated state /\
        database_errors r.2 = (database_errors state ++ [msg])%list) /\
     (upsert_declined client current = None ->
        forall product, In product batch ->
          exists row,
            In row current /\
            store_product_id product = Some (cp_store_product_id row) /\
            price product = Some (cp_price row) /\
            current_prices r.1 !! cp_store_product_id row = Some row) /\
     (forall msg, upsert_declined client current = None ->
        insert_declined client history = Some msg ->
        price_history r.1 = price_history db /\
        prices_updated r.2 = prices_updated state /\
        database_errors r.2 = (database_errors state ++ [msg])%list) /\
     (upsert_declined client current = None ->
      insert_declined client history = None ->
        price_history r.1 = (price_history db ++ history)%list /\
        prices_updated r.2 = Some (length batch) /\
        database_errors r.2 = database_errors state)).
Proof.
  intros batch r. subst r. unfold update_prices. fold batch.
  destruct (decide (Forall complete batch)) as [Hall|Hnot].
  - destruct (build_rows_complete now batch 0 Hall)
      as (c & h & -> & Hkeys & Hlen & Hrows).
    unfold upsert, insert_rows. rewrite Hkeys.
    destruct (distinct (omap store_product_id batch)) eqn:Hd; simpl.
    + split; [by intros []|]. intros _. exists c, h.
      assert (Hc : length c = length batch)
        by (symmetry; apply (Forall2_length _ _ _ Hrows)).
      split; [done|]. split; [done|]. split; [done|].
      split; [|split; [|split]].
      * by intros msg ->.
      * intros -> product Hin.
        apply list_elem_of_In, list_elem_of_lookup in Hin as [i Hi].
        destruct (Forall2_lookup_l _ _ _ _ _ Hrows Hi) as (row & Hrow & Hs & Hp).
        assert (Hin : In row c).
        { apply list_elem_of_In, list_elem_of_lookup. by exists i. }
        exists row. repeat split; try done.
        destruct (insert_declined client h); simpl;
          apply upsert_lookup_row; by rewrite ?Hkeys.
      * by intros msg -> ->.
      * intros -> ->. simpl. by rewrite Hc.
    + split; [|by intros [_ [=]]]. intros _.
      destruct (upsert_declined client c); simpl; repeat split; by eexists.
  - destruct (build_rows_incomplete now batch 0 Hnot) as (key & -> & _). simpl.
    split; [|by intros [? _]]. intros _. repeat split. by eexists.
Qed.

Lemma update_prices_outcomes_witness :
  price_history
    (update_prices (mkClient (fun _ => None) (fun _ => Some "connection reset"))
       (fun _ => 100%Z) empty_store
       (mkDatabaseState [PriceValidation.priced "sp-1" 1.99%Q] 0 None [])).1
  = [] /\
  prices_updated
    (update_prices (mkClient (fun _ => None) (fun _ => Some "connection reset"))
       (fun _ => 100%Z) empty_store
       (mkDatabaseState [PriceValidation.priced "sp-1" 1.99%Q] 0 None [])).2
  = None /\
  database_errors
    (update_prices (mkClient (fun _ => None) (fun _ => Some "connection reset"))
       (fun _ => 100%Z) empty_store
       (mkDatabaseState [PriceValidation.priced "sp-1" 1.99%Q] 0 None [])).2
  = ["connection reset"].
Proof.
  destruct (proj2 (update_prices_outcomes
              (mkClient (fun _ => None) (fun _ => Some "connection reset"))
              (fun _ => 100%Z) empty_store
              (mkDatabaseState [PriceValidation.priced "sp-1" 1.99%Q] 0 None [])))
    as (current & history & _ & _ & _ & _ & _ & Hhalf & _).
  - split; [|reflexivity]. repeat constructor; by eexists.
  - exact (Hhalf "connection reset" eq_refl eq_refl).
Defined.

End update_prices_properties.

(** ** Product standardization agent: the cost of a pass and missing names *)

Section standardization_more.
Import ProductStandardization.

Lemma length_enumerate {A} (l : list A) : forall s,
  length (Py.enumerate l s) = length l.
Proof. induction l as [|x l IH]; intros s; simpl; [done|]. by rewrite IH. Qed.

Lemma map_enumerate_index {A B} (g : nat -> B) (l : list A) : forall s,
  map (fun ip : nat * A => g ip.1) (Py.enumerate l s) = map g (seq s (length l)).
Proof. induction l as [|x l IH]; intros s; simpl; [done|]. by rewrite IH. Qed.

(** 2 * ((m - 1) + (m - 2) + ... + 0), the sum taken from position [k]. *)
Lemma twice_descending_sum (n : nat) : forall k,
  2 * list_sum (map (fun i => (k + n) - (i + 1)) (seq k n)) = n * (n - 1).
Proof.
  induction n as [|n IH]; intros k; simpl; [done|].
  specialize (IH (S k)).
  replace (map (fun i => k + S n - (i + 1)) (seq (S k) n))
    with (map (fun i => S k + n - (i + 1)) (seq (S k) n)).
  - replace (k + S n - (k + 1)) with n by lia. nia.
  - apply map_ext. intros i. lia.
Qed.

Lemma length_pairs (products : list Product) :
  2 * length (pairs products) = length products * (length products - 1).
Proof.
  unfold pairs. rewrite length_flat_map.
  rewrite (map_ext _ (fun ip : nat * Product => length products - (ip.1 + 1))).
  - rewrite (map_enumerate_index (fun i => length products - (i + 1))).
    apply (twice_descending_sum (length products) 0).
  - intros [i p]. rewrite length_map, length_enumerate, length_drop. done.
Qed.

Lemma length_compare sim strat e : length (compare sim strat e) <= 1.
Proof. unfold compare. destruct (Py.gt _ _); simpl; lia. Qed.

Lemma length_duplicates sim strat (l : list ((nat * Product) * (nat * Product))) :
  length (flat_map (compare sim strat) l) <= length l.
Proof.
  induction l as [|e l IH]; simpl; [done|]. rewrite length_app.
  pose proof (length_compare sim strat e). lia.
Qed.

(** X3.  A duplicate detection pass over [n] products calls
    [calculate_similarity] n * (n - 1) / 2 times, whatever the scores, and
    records at most that many entries; a batch of one product or none is
    never compared. *)
Theorem detect_duplicates_comparisons
    (calculate_similarity : Product -> Product -> Q)
    (determine_merge_strategy : Product -> Product -> string)
    (state : ProcessingState) :
  let n := length (processed_products state) in
  2 * length (pairs (processed_products state)) = n * (n - 1) /\
  2 * length (duplicates (detect_duplicates calculate_similarity
                            determine_merge_strategy state)) <= n * (n - 1) /\
  (n <= 1 ->
   duplicates (detect_duplicates calculate_similarity
                 determine_merge_strategy state) = []).
Proof.
  intros n. pose proof (length_pairs (processed_products state)) as Hlen.
  pose proof (length_duplicates calculate_similarity determine_merge_strategy
                (pairs (processed_products state))) as Hle.
  fold n in Hlen. simpl. repeat split; [done|lia|].
  intros Hn. apply length_zero_iff_nil. nia.
Qed.

Lemma detect_duplicates_comparisons_witness :
  duplicates (detect_duplicates (fun _ _ => 1%Q) (fun _ _ => "keep_first")
                (mkProcessingState [] [bare "p-1" "melk"] [])) = [].
Proof.
  apply (proj2 (proj2 (detect_duplicates_comparisons (fun _ _ => 1%Q)
           (fun _ _ => "keep_first") (mkProcessingState [] [bare "p-1" "melk"] [])))).
  simpl. lia.
Defined.

(** X4.  [normalize_names] works on the dicts of [raw_products]
    themselves.  When every raw product has a name, it returns with
    [processed_products] holding the products of [raw_products], the same
    dicts in the same order, so that both lists show the normalized names;
    each of these dicts has got its normalized name and its tokens, its
    other keys are as they were, and no other dict is touched.  When a
    product has no name, [KeyError('name')] leaves the call:
    [processed_products] is not assigned, the dicts in front of the first
    product without a name have been normalized all the same, and no other
    dict is touched. *)
Theorem normalize_names_in_place (normalize : string -> string)
    (tokenize : string -> list string) (state : Memory) :
  let after := normalize_names normalize tokenize state in
  raw_refs after.1 = raw_refs state /\
  found after.1 = found state /\
  ((forall ref, In ref (raw_refs state) -> is_Some (name (objects state ref))) ->
   after.2 = None /\
   processed_refs after.1 = raw_refs state /\
   raw_products (view after.1) = processed_products (view after.1) /\
   (forall ref, ~ In ref (raw_refs state) ->
      objects after.1 ref = objects state ref) /\
   (forall ref, In ref (raw_refs state) ->
      exists n, name (objects state ref) = Some n /\
        objects after.1 ref
        = with_names (objects state ref) (normalize n) (tokenize (normalize n)))) /\
  (forall i ref,
     raw_refs state !! i = Some ref -> name (objects state ref) = None ->
     (forall r, In r (take i (raw_refs state)) ->
        is_Some (name (objects state r))) ->
     after.2 = Some (Py.KeyError "name") /\
     processed_refs after.1 = processed_refs state /\
     (forall r, ~ In r (take i (raw_refs state)) ->
        objects after.1 r = objects state r) /\
     (forall r, In r (take i (raw_refs state)) ->
        exists n, name (objects state r) = Some n /\
          objects after.1 r
          = with_names (objects state r) (normalize n) (tokenize (normalize n)))).
Proof.
  unfold normalize_names. split; [|split; [|split]].
  - by destruct (normalize_each _ _ _ _ _) as [objects' [normalized|e]].
  - by destruct (normalize_each _ _ _ _ _) as [objects' [normalized|e]].
  - intros Hnamed.
    destruct (normalize_each_named normalize tokenize _ (objects state) [] Hnamed)
      as (objects' & -> & Hout & Hin).
    simpl. by repeat split.
  - intros i ref Hi Hnone Hnamed.
    destruct (normalize_each_nameless normalize tokenize _ i ref (objects state) []
                Hi Hnone Hnamed) as (objects' & -> & Hout & Hin).
    simpl. by repeat split.
Qed.

Lemma normalize_names_in_place_witness :
  (normalize_names DataQuality.normalize_product_name (fun n => [n]) shelf).2
  = Some (Py.KeyError "name") /\
  processed_refs
    (normalize_names DataQuality.normalize_product_name (fun n => [n]) shelf).1
  = [] /\
  normalized_name
    (objects
       (normalize_names DataQuality.normalize_product_name (fun n => [n]) shelf).1
       0)
  = Some "melk" /\
  normalized_name
    (objects
       (normalize_names DataQuality.normalize_product_name (fun n => [n]) shelf).1
       2)
  = None.
Proof.
  destruct (proj2 (proj2 (proj2
              (normalize_names_in_place DataQuality.normalize_product_name
                 (fun n => [n]) shelf))) 1 1 eq_refl eq_refl)
    as (Hexn & Hprocessed & Hout & Hin).
  - intros r [<-|[]]. by eexists.
  - split; [exact Hexn|]. split; [exact Hprocessed|]. split.
    + destruct (Hin 0 (or_introl eq_refl)) as (n & [= <-] & Hobj).
      rewrite Hobj. reflexivity.
    + rewrite (Hout 2); [reflexivity|].
      intros [[=]|[]].
Defined.

End standardization_more.

(** ** Price validation agent: the split of a batch and a missing price *)

Section price_validation_more.
Import PriceValidation.

Lemma validate_each_filter (v : Product -> ValidationResult)
    (scraped : list Product) :
  validate_each v scraped =
  (List.filter (fun product => valid (v product)) scraped,
   map (fun product => (id product, errors (v product)))
       (List.filter (fun product => negb (valid (v product))) scraped)).
Proof.
  induction scraped as [|product rest IH]; simpl; [done|].
  rewrite IH. by destruct (valid (v product)).
Qed.

Lemma filter_split_length {A} (f : A -> bool) (l : list A) :
  length (List.filter f l) + length (List.filter (fun x => negb (f x)) l)
  = length l.
Proof.
  induction l as [|x l IH]; simpl; [done|]. destruct (f x); simpl; lia.
Qed.

(** X5.  [validate_prices] splits the scraped products in two, keeping
    their order: the products its validator accepts become
    [validated_products], and each of the others gets one entry in
    [validation_errors], with its id and the errors of the validator.  No
    product is lost or counted twice, and the scraped products themselves
    are left as they were. *)
Theorem validate_prices_partition
    (validate_single_price : Product -> ValidationResult)
    (state : ValidationState) :
  let state' := validate_prices validate_single_price state in
  validated_products state'
  = List.filter (fun product => valid (validate_single_price product))
      (scraped_products state) /\
  validation_errors state'
  = map (fun product => (id product, errors (validate_single_price product)))
      (List.filter (fun product => negb (valid (validate_single_price product)))
         (scraped_products state)) /\
  length (validated_products state') + length (validation_errors state')
  = length (scraped_products state) /\
  scraped_products state' = scraped_products state /\
  outliers state' = outliers state.
Proof.
  unfold validate_prices. rewrite validate_each_filter. simpl.
  repeat split. rewrite length_map. apply filter_split_length.
Qed.

End price_validation_more.

(** ** Job monitor: what an action leaves alone *)

Section job_monitor_more.
Import JobMonitor.

Lemma act_fields (job : ScrapingJob) (jobId : string) (action : Action) :
  let job' := if String.eqb (id job) jobId then
                match action with
                | pause => with_status job paused
                | resume => with_status job running
                | stop => with_status job failed
                | retry =>
                    mkScrapingJob (id job) (store job) (type job) pending 0%Q
                      (startTime job) (estimatedEnd job) 0%Z
                      (productsTotal job) 0%Z
                end
              else job in
  id job' = id job /\ store job' = store job /\ type job' = type job /\
  startTime job' = startTime job /\ estimatedEnd job' = estimatedEnd job /\
  productsTotal job' = productsTotal job.
Proof. simpl. destruct (String.eqb (id job) jobId), action; done. Qed.

(** X7.  [handleJobAction] never adds, removes or reorders jobs, and never
    changes the id, store, type, start time, estimated end or total of a
    job.  After it, every job with the given id has the status of the
    action (paused, running, failed or pending), so after a stop or a
    pause no job with that id counts as active. *)
Theorem handleJobAction_preserves (prev : list ScrapingJob) (jobId : string)
    (action : Action) :
  let next := handleJobAction prev jobId action in
  length next = length prev /\
  Forall2 (fun job job' =>
             id job' = id job /\ store job' = store job /\ type job' = type job /\
             startTime job' = startTime job /\
             estimatedEnd job' = estimatedEnd job /\
             productsTotal job' = productsTotal job) prev next /\
  (forall job', In job' next -> id job' = jobId ->
     status job' = match action with
                   | pause => paused
                   | resume => running
                   | stop => failed
                   | retry => pending
                   end).
Proof.
  intros next. subst next. unfold handleJobAction.
  split; [apply length_map|]. split.
  - induction prev as [|job prev IH]; simpl; constructor; [|done].
    apply act_fields.
  - intros job' (job & <- & _)%in_map_iff.
    destruct (String.eqb (id job) jobId) eqn:Heq.
    + by destruct action.
    + intros Hid. apply String.eqb_neq in Heq. done.
Qed.

Lemma handleJobAction_preserves_witness :
  status (with_status failed_job failed) = failed.
Proof.
  apply (proj2 (proj2 (handleJobAction_preserves
                         [with_status failed_job running] "job-1" stop))).
  - left. reflexivity.
  - reflexivity.
Defined.

(** X8.  Pausing and then resuming gives back the list as it was when
    every job with the given id was running; and doing any action twice
    is the same as doing it once. *)
Theorem handleJobAction_round_trip (prev : list ScrapingJob) (jobId : string) :
  ((forall job, In job prev -> id job = jobId -> status job = running) ->
   handleJobAction (handleJobAction prev jobId pause) jobId resume = prev) /\
  (forall action,
     handleJobAction (handleJobAction prev jobId action) jobId action
     = handleJobAction prev jobId action).
Proof.
  unfold handleJobAction. split.
  - intros Hrun. rewrite map_map. rewrite <- (map_id prev) at 2.
    apply map_ext_in. intros job Hin.
    destruct (String.eqb (id job) jobId) eqn:Heq; simpl; rewrite Heq; [|done].
    apply String.eqb_eq in Heq. specialize (Hrun job Hin Heq).
    destruct job; simpl in *. by subst.
  - intros action. rewrite map_map. apply map_ext. intros job.
    destruct (String.eqb (id job) jobId) eqn:Heq.
    + destruct action; simpl; by rewrite Heq.
    + by rewrite Heq.
Qed.

Lemma handleJobAction_round_trip_witness :
  handleJobAction
    (handleJobAction [with_status failed_job running] "job-1" pause)
    "job-1" resume
  = [with_status failed_job running].
Proof.
  apply (proj1 (handleJobAction_round_trip [with_status failed_job running] "job-1")).
  intros job [<-|[]] _. reflexivity.
Defined.

End job_monitor_more.

(** ** Toast store: ids, removal and listeners *)

Section toast_properties.
Import ToastStore.
Local Open Scope list_scope.

Lemma toast_id_inj (j k : nat) :
  "toast-" +:+ pretty j = "toast-" +:+ pretty k -> j = k.
Proof. intros H. by apply (inj pretty), (inj (String.app "toast-")). Qed.

Lemma filter_ids_NoDup (f : Toast -> bool) (ts : list Toast) :
  NoDup (id <$> ts) -> NoDup (id <$> List.filter f ts).
Proof.
  induction ts as [|t ts IH]; simpl; [done|].
  rewrite NoDup_cons. intros [Hnew Hnd]. destruct (f t); [|by apply IH].
  csimpl. apply NoDup_cons. split; [|by apply IH].
  intros (t' & Hid & Hin)%list_elem_of_fmap. apply Hnew.
  apply list_elem_of_fmap. exists t'. split; [done|].
  apply list_elem_of_In. apply list_elem_of_In, filter_In in Hin. tauto.
Qed.

Lemma fresh_id (st : Store) (o : ToastOptions) :
  ids_ok st -> (addToast st o).2 ∉ id <$> toasts st.
Proof.
  intros [_ Hids] (t & Hid & Hin)%list_elem_of_fmap.
  destruct (Hids t Hin) as (k & Hk & Hk'). simpl in Hid.
  rewrite Hk' in Hid. apply toast_id_inj in Hid. lia.
Qed.

Lemma addToast_ids_ok (st : Store) (o : ToastOptions) :
  ids_ok st -> ids_ok (addToast st o).1.
Proof.
  intros Hok. pose proof (fresh_id st o Hok) as Hfresh.
  destruct Hok as [Hnd Hids]. split; simpl.
  - rewrite fmap_app. apply NoDup_app. split; [done|]. split.
    + intros i Hi [->|[]%elem_of_nil]%elem_of_cons. done.
    + apply NoDup_singleton.
  - intros t [Hin|[->|[]%elem_of_nil]%elem_of_cons]%elem_of_app.
    + destruct (Hids t Hin) as (k & Hk & Hk'). exists k. split; [lia|done].
    + exists (S (toastCounter st)). split; [lia|done].
Qed.

Lemma removeToast_ids_ok (st : Store) (i : string) :
  ids_ok st -> ids_ok (removeToast st i).
Proof.
  intros [Hnd Hids]. split; simpl.
  - by apply filter_ids_NoDup.
  - intros t Hin. apply Hids.
    apply list_elem_of_In. apply list_elem_of_In, filter_In in Hin. tauto.
Qed.

Lemma step_ids_ok (st : Store) (e : Event) : ids_ok st -> ids_ok (step st e).
Proof.
  intros Hok. destruct e as [o|o|o|o|i|k|c|c]; simpl;
    try (by apply addToast_ids_ok); try (by apply removeToast_ids_ok);
    try done.
  unfold fire. destruct (timers st !! k) as [[delay i]|]; [|done].
  by apply (removeToast_ids_ok st i).
Qed.

Lemma run_ids_ok (es : list Event) : forall st, ids_ok st -> ids_ok (run st es).
Proof.
  induction es as [|e es IH]; intros st Hok; simpl; [done|].
  by apply IH, step_ids_ok.
Qed.

Lemma init_ids_ok : ids_ok init.
Proof. split; simpl; [constructor|]. by intros t Hin%elem_of_nil. Qed.

(** X9.  Whatever toasts were added, dismissed or timed out, and whatever
    components came and went, the toasts of the store have pairwise
    different ids, each of the form "toast-k" with k between 1 and the
    counter; and the id [addToast] gives out next is the id of no toast
    that is showing. *)
Theorem toast_ids_unique (es : list Event) (o : ToastOptions) :
  let st := run init es in
  NoDup (id <$> toasts st) /\
  (forall toast, toast ∈ toasts st ->
     exists k, 1 <= k <= toastCounter st /\ id toast = "toast-" +:+ pretty k) /\
  (addToast st o).2 ∉ id <$> toasts st.
Proof.
  intros st. pose proof (run_ids_ok es init init_ids_ok) as Hok. fold st in Hok.
  split; [apply Hok|]. split; [apply Hok|]. by apply fresh_id.
Qed.

Lemma filter_other_ids (ts : list Toast) (i : string) :
  i ∉ id <$> ts ->
  List.filter (fun toast => negb (String.eqb (id toast) i)) ts = ts.
Proof.
  induction ts as [|t ts IH]; simpl; [done|].
  rewrite not_elem_of_cons. intros [Hne Hrest].
  apply not_eq_sym, String.eqb_neq in Hne. rewrite Hne. simpl. by rewrite IH.
Qed.

Lemma remove_added (st : Store) (o : ToastOptions) :
  ids_ok st ->
  toasts (removeToast (addToast st o).1 (addToast st o).2) = toasts st.
Proof.
  intros Hok. simpl. rewrite List.filter_app. simpl.
  rewrite String.eqb_refl. simpl. rewrite app_nil_r.
  apply filter_other_ids. by apply (fresh_id st o).
Qed.

(** X10.  A toast that is added and then removed by its id, or by the
    timer [addToast] set for it, leaves the toasts of the store as they
    were before.  That timer is the last one pending, and its delay is the
    duration asked for when one other than 0 was given, and 5000 ms when
    none or 0 was given: never 0. *)
Theorem toast_add_then_remove (es : list Event) (o : ToastOptions) :
  let st := run init es in
  let added := (addToast st o).1 in
  toasts (removeToast added (addToast st o).2) = toasts st /\
  timers added !! length (timers st)
  = Some (duration_or_default o, (addToast st o).2) /\
  toasts (fire added (length (timers st))) = toasts st /\
  duration_or_default o <> 0%Z /\
  (forall d, duration o = Some d -> d <> 0%Z -> duration_or_default o = d) /\
  (duration o = None \/ duration o = Some 0%Z -> duration_or_default o = 5000%Z).
Proof.
  intros st added.
  pose proof (run_ids_ok es init init_ids_ok) as Hok. fold st in Hok.
  assert (Htimer : timers added !! length (timers st)
                   = Some (duration_or_default o, (addToast st o).2)).
  { simpl. rewrite lookup_app_r by lia. by rewrite Nat.sub_diag. }
  split; [by apply remove_added|]. split; [done|]. split.
  - unfold fire. rewrite Htimer. simpl.
    pose proof (remove_added st o Hok) as Hrem. simpl in Hrem. exact Hrem.
  - unfold duration_or_default. split; [|split].
    + destruct (duration o) as [d|]; [|done].
      destruct (Z.eqb_spec d 0); [done|done].
    + intros d -> Hd. by destruct (Z.eqb_spec d 0).
    + by intros [->| ->].
Qed.

Lemma toast_add_then_remove_witness :
  duration_or_default (mkToastOptions (Some "Saved") None None (Some 1500%Z))
  = 1500%Z /\
  duration_or_default (mkToastOptions (Some "Saved") None None (Some 0%Z))
  = 5000%Z.
Proof.
  split.
  - apply (proj1 (proj2 (proj2 (proj2 (proj2 (toast_add_then_remove []
             (mkToastOptions (Some "Saved") None None (Some 1500%Z)))))))
             1500%Z eq_refl).
    discriminate.
  - apply (proj2 (proj2 (proj2 (proj2 (proj2 (toast_add_then_remove []
             (mkToastOptions (Some "Saved") None None (Some 0%Z)))))))).
    right. reflexivity.
Defined.

Lemma notify_lookup (ls : gset nat) (ts : list Toast)
    (cs : gmap nat (list Toast)) (c : nat) :
  notify ls ts cs !! c
  = (fun shown => if decide (c ∈ ls) then ts else shown) <$> cs !! c.
Proof.
  unfold notify. rewrite map_lookup_imap. by destruct (cs !! c).
Qed.

Lemma notify_listeners_ok (st : Store) (ts : list Toast) (cnt : nat)
    (tm : list (Z * string)) :
  listeners_ok st ->
  listeners_ok (mkStore cnt ts (listeners st)
                  (notify (listeners st) ts (components st)) tm).
Proof.
  intros Hok c Hc. simpl in *. left. rewrite notify_lookup.
  destruct (Hok c Hc) as [-> | ->]; simpl; by rewrite decide_True.
Qed.

Lemma step_listeners_ok (st : Store) (e : Event) :
  listeners_ok st -> listeners_ok (step st e).
Proof.
  intros Hok.
  destruct e as [o|o|o|o|i|k|c|c]; simpl;
    try (by apply notify_listeners_ok).
  - unfold fire. destruct (timers st !! k) as [[delay i]|]; [|done].
    by apply (notify_listeners_ok st).
  - intros c' Hc'. simpl in *. destruct (decide (c' = c)) as [->|Hne].
    + right. by rewrite lookup_insert_eq.
    + rewrite lookup_insert_ne by done. apply Hok.
      by apply elem_of_union in Hc' as [Hc'%elem_of_singleton|Hc'].
  - intros c' Hc'. simpl in *.
    apply elem_of_difference in Hc' as [Hc' Hne%not_elem_of_singleton].
    rewrite lookup_delete_ne by done. by apply Hok.
Qed.

Lemma run_listeners_ok (es : list Event) : forall st,
  listeners_ok st -> listeners_ok (run st es).
Proof.
  induction es as [|e es IH]; intros st Hok; simpl; [done|].
  by apply IH, step_listeners_ok.
Qed.

(** X11.  A component that listens shows either the toasts of the store
    or, when it has mounted since the last change, nothing: it never shows
    a list that is out of date otherwise.  Every add and every removal
    brings all listening components to the toasts of the store; mounting
    does not: the component starts with the empty list even while toasts
    are showing elsewhere. *)
Theorem toast_listeners_in_step (es : list Event) :
  let st := run init es in
  (forall c, c ∈ listeners st ->
     components st !! c = Some (toasts st) \/ components st !! c = Some []) /\
  (forall o c, c ∈ listeners st ->
     components (addToast st o).1 !! c = Some (toasts (addToast st o).1)) /\
  (forall i c, c ∈ listeners st ->
     components (removeToast st i) !! c = Some (toasts (removeToast st i))) /\
  (forall c, c ∈ listeners (mount st c) /\
             components (mount st c) !! c = Some []).
Proof.
  intros st.
  assert (Hok : listeners_ok st).
  { apply run_listeners_ok. intros c Hc. simpl in Hc. set_solver. }
  split; [exact Hok|]. split; [|split].
  - intros o c Hc. simpl. rewrite notify_lookup.
    destruct (Hok c Hc) as [-> | ->]; simpl; by rewrite decide_True.
  - intros i c Hc. simpl. rewrite notify_lookup.
    destruct (Hok c Hc) as [-> | ->]; simpl; by rewrite decide_True.
  - intros c. simpl. split; [set_solver|]. by rewrite lookup_insert_eq.
Qed.

Lemma toast_listeners_in_step_witness :
  components (run init [Mount 1; Add (mkToastOptions (Some "Saved") None None None);
                        Mount 2]) !! 2 = Some [] /\
  components (addToast
                (run init [Mount 1; Add (mkToastOptions (Some "Saved") None None None);
                           Mount 2])
                (mkToastOptions (Some "Again") None None (Some 0%Z))).1 !! 2
  = Some (toasts (addToast
                (run init [Mount 1; Add (mkToastOptions (Some "Saved") None None None);
                           Mount 2])
                (mkToastOptions (Some "Again") None None (Some 0%Z))).1).
Proof.
  split; [reflexivity|].
  apply (proj1 (proj2 (toast_listeners_in_step
    [Mount 1; Add (mkToastOptions (Some "Saved") None None None); Mount 2]))).
  vm_compute. set_solver.
Defined.

End toast_properties.

(** ** Batches: what a run of batches covers *)

Section batching_properties.
Import Batching.
Local Open Scope list_scope.

Lemma starts_count (n s : nat) :
  0 < s ->
  let m := (n + s - 1) / s in
  n <= m * s /\ m * s < n + s.
Proof.
  intros Hs m. pose proof (Nat.div_mod (n + s - 1) s ltac:(lia)) as Hdm.
  pose proof (Nat.mod_upper_bound (n + s - 1) s ltac:(lia)) as Hr.
  fold m in Hdm. nia.
Qed.

Lemma concat_slices {A} (l : list A) (s m : nat) :
  concat (map (fun i => take s (drop i l)) (map (fun k => k * s) (seq 0 m)))
  = take (m * s) l.
Proof.
  induction m as [|m IH]; [done|].
  rewrite seq_S, !map_app, concat_app, IH. simpl. rewrite app_nil_r.
  rewrite take_take_drop. f_equal. lia.
Qed.

Lemma slice_lookup {A} (l : list A) (s m k : nat) (batch : list A) :
  map (fun i => take s (drop i l)) (map (fun k => k * s) (seq 0 m)) !! k
  = Some batch ->
  k < m /\ batch = take s (drop (k * s) l).
Proof.
  rewrite map_map. intros Hlk.
  apply (list_lookup_fmap_Some_1 (fun k => take s (drop (k * s) l))) in Hlk
    as (k' & -> & [-> Hk]%lookup_seq).
  done.
Qed.

Lemma positive_batches {A} (products : list A) (batch_size : Z) :
  (0 < batch_size)%Z ->
  exists batches,
    process_products_in_batches products batch_size = Yields batches /\
    concat batches = products /\
    forall k batch, batches !! k = Some batch ->
      batch <> [] /\ length batch <= Z.to_nat batch_size /\
      (S k < length batches -> length batch = Z.to_nat batch_size).
Proof.
  unfold process_products_in_batches. intros Hpos.
  destruct (Z.eqb_spec batch_size 0) as [|_]; [lia|].
  destruct (Z.ltb_spec batch_size 0) as [|_]; [lia|].
  set (s := Z.to_nat batch_size). assert (Hs : 0 < s) by lia.
  destruct (starts_count (length products) s Hs) as [Hge Hlt].
  eexists. split; [done|]. unfold starts. split.
  - rewrite concat_slices. by apply take_ge.
  - intros k batch [Hk ->]%slice_lookup.
    rewrite !length_map, length_seq.
    assert (Hin : k * s < length products) by nia.
    rewrite length_take, length_drop. split; [|split].
    + intros Hnil%(f_equal length). rewrite length_take, length_drop in Hnil.
      simpl in Hnil. lia.
    + lia.
    + intros Hnext. nia.
Qed.

(** X12.  With a positive batch size the batches, put end to end, are the
    products: none is lost, repeated or moved.  No batch is empty, none is
    longer than the batch size, and all but the last have exactly that
    size.  A batch size of 0 raises the [ValueError] of [range]; a
    negative one yields no batch at all, whatever the products. *)
Theorem batches_cover {A} (products : list A) (batch_size : Z) :
  ((0 < batch_size)%Z ->
   exists batches,
     process_products_in_batches products batch_size = Yields batches /\
     concat batches = products /\
     forall k batch, batches !! k = Some batch ->
       batch <> [] /\ length batch <= Z.to_nat batch_size /\
       (S k < length batches -> length batch = Z.to_nat batch_size)) /\
  (batch_size = 0%Z ->
   process_products_in_batches products batch_size
   = ValueError "range() arg 3 must not be zero") /\
  ((batch_size < 0)%Z ->
   process_products_in_batches products batch_size = Yields []).
Proof.
  split; [apply positive_batches|]. unfold process_products_in_batches. split.
  - intros ->. done.
  - intros Hneg. destruct (Z.eqb_spec batch_size 0) as [|_]; [lia|].
    by destruct (Z.ltb_spec batch_size 0) as [_|]; [|lia].
Qed.

Lemma batches_cover_witness :
  process_products_in_batches ["a"; "b"; "c"; "d"; "e"] (-2) = Yields [] /\
  exists batches,
    process_products_in_batches ["a"; "b"; "c"; "d"; "e"] 2 = Yields batches /\
    concat batches = ["a"; "b"; "c"; "d"; "e"].
Proof.
  split.
  - apply (proj2 (proj2 (batches_cover ["a"; "b"; "c"; "d"; "e"] (-2)))). lia.
  - destruct (proj1 (batches_cover ["a"; "b"; "c"; "d"; "e"] 2) ltac:(lia))
      as (batches & Hrun & Hcat & _).
    by exists batches.
Defined.

End batching_properties.

(** ** Database operations agent: products upserted batch by batch *)

Section product_upsert_properties.
Import ProductUpsert.
Local Open Scope list_scope.
Variable rejects : list Row -> option string.






End product_upsert_properties.


(** ** Task scheduler: the order of the tasks *)

Section scheduler_properties.
Import Scheduler.
Local Open Scope list_scope.

Local Abbreviation before :=
  (fun a b : Task => (priority b <= priority a)%Z).

Lemma insert_task_perm (t : Task) (sorted : list Task) :
  Permutation (insert_task t sorted) (t :: sorted).
Proof.
  induction sorted as [|u rest IH]; simpl; [done|].
  destruct (priority t <? priority u)%Z; [|done].
  rewrite IH. apply perm_swap.
Qed.

Lemma insert_task_sorted (t : Task) (sorted : list Task) :
  StronglySorted before sorted -> StronglySorted before (insert_task t sorted).
Proof.
  induction sorted as [|u rest IH]; simpl; intros Hs.
  - repeat constructor.
  - apply StronglySorted_inv in Hs as [Hrest Hu].
    destruct (Z.ltb_spec (priority t) (priority u)) as [Hlt|Hge].
    + constructor; [by apply IH|].
      rewrite (insert_task_perm t rest). constructor; [simpl; lia|done].
    + constructor; [by constructor|]. constructor; [simpl; lia|].
      eapply Forall_impl; [exact Hu|]. simpl. intros x Hx. lia.
Qed.

Lemma insert_task_stable (p : Z) (t : Task) (sorted : list Task) :
  List.filter (fun x => (priority x =? p)%Z) (insert_task t sorted)
  = List.filter (fun x => (priority x =? p)%Z) (t :: sorted).
Proof.
  induction sorted as [|u rest IH]; [done|]. simpl insert_task.
  destruct (Z.ltb_spec (priority t) (priority u)) as [Hlt|Hge]; [|done].
  simpl in *. rewrite IH.
  destruct (Z.eqb_spec (priority t) p), (Z.eqb_spec (priority u) p);
    try done. lia.
Qed.

Lemma sort_by_priority_spec (tasks : list Task) :
  StronglySorted before (sort_by_priority tasks) /\
  Permutation (sort_by_priority tasks) tasks /\
  forall p, List.filter (fun x => (priority x =? p)%Z) (sort_by_priority tasks)
            = List.filter (fun x => (priority x =? p)%Z) tasks.
Proof.
  induction tasks as [|t tasks (Hs & Hp & Hst)]; simpl.
  - repeat split; constructor.
  - split; [by apply insert_task_sorted|]. split.
    + by rewrite insert_task_perm, Hp.
    + intros p. rewrite insert_task_stable. simpl. by rewrite Hst.
Qed.

Section with_agent.
Variable should_scrape : string -> bool.
Variable calculate_priority : string -> Z.
Variable estimate_duration : string -> Z.
Variable now : nat -> Z.

Local Abbreviation schedule :=
  (schedule should_scrape calculate_priority estimate_duration now).

Lemma schedule_stores (names : list string) : forall k,
  map store (schedule k names) = List.filter should_scrape names.
Proof.
  induction names as [|s rest IH]; intros k; simpl; [done|].
  destruct (should_scrape s); simpl; by rewrite IH.
Qed.

Lemma schedule_tasks (names : list string) : forall k t,
  In t (schedule k names) ->
  type t = "price_update"%string /\
  priority t = calculate_priority (store t) /\
  estimated_duration t = estimate_duration (store t).
Proof.
  induction names as [|s rest IH]; intros k t; simpl; [done|].
  destruct (should_scrape s); [|by apply IH].
  intros [<-|Hin]; [done|]. by apply (IH (S k)).
Qed.

(** X14.  [task_scheduler] schedules one price update for each of the four
    stores that is due, and none for a store that is not.  The tasks are
    in order of priority, highest first, tasks of equal priority in the
    order of the store list; each carries the priority and the estimate
    computed for its store. *)
Theorem task_scheduler_order :
  let tasks :=
    task_scheduler should_scrape calculate_priority estimate_duration now in
  StronglySorted before tasks /\
  Permutation (map store tasks) (List.filter should_scrape stores) /\
  (forall p, List.filter (fun x => (priority x =? p)%Z) tasks
             = List.filter (fun x => (priority x =? p)%Z) (schedule 0 stores)) /\
  (forall t, In t tasks ->
     type t = "price_update"%string /\
     priority t = calculate_priority (store t) /\
     estimated_duration t = estimate_duration (store t)) /\
  length tasks <= 4.
Proof.
  intros tasks. subst tasks. unfold task_scheduler.
  destruct (sort_by_priority_spec (schedule 0 stores)) as (Hs & Hp & Hst).
  split; [done|]. split; [|split; [done|split]].
  - rewrite <- (schedule_stores stores 0). by apply Permutation_map.
  - intros t Hin. apply (schedule_tasks stores 0).
    apply list_elem_of_In. rewrite <- Hp. by apply list_elem_of_In.
  - rewrite (Permutation_length Hp), <- (length_map store), schedule_stores.
    etrans; [apply filter_length_le|]. done.
Qed.

End with_agent.

Lemma task_scheduler_order_witness :
  map store
    (task_scheduler (fun s => negb (String.eqb s "hoogvliet"))
       (fun s => if String.eqb s "dirk" then 1%Z else 5%Z)
       (fun _ => 300%Z) (fun _ => 0%Z))
  = ["albert_heijn"; "jumbo"; "dirk"]%string /\
  priority (mkTask "dirk" "price_update" 1 0 300) = 1%Z.
Proof.
  split; [reflexivity|].
  refine (proj1 (proj2 (proj1 (proj2 (proj2 (proj2 (task_scheduler_order
           (fun s => negb (String.eqb s "hoogvliet"))
           (fun s => if String.eqb s "dirk" then 1%Z else 5%Z)
           (fun _ => 300%Z) (fun _ => 0%Z))))) _ _))).
  right. right. left. reflexivity.
Defined.

End scheduler_properties.

(** ** Performance monitor agent: when an alert is raised *)

Section performance_properties.
Import PerformanceMonitor.
Local Open Scope list_scope.
Variable calculate_severity : Q -> Q -> string.

Local Abbreviation check := (check calculate_severity).

Lemma gt_iff (x y : Q) : Py.gt x y = true <-> (y < x)%Q.
Proof.
  unfold Py.gt. rewrite negb_true_iff, <- not_true_iff_false, Qle_bool_iff.
  split; [apply Qnot_le_lt | apply Qlt_not_le].
Qed.

(** With thresholds that are not negative an absent metric, read as 0, is
    never above its threshold, so [metrics[name]] is never reached for
    it. *)
Lemma check_spec (metrics : gmap string Q) (thresholds : list (string * Q)) :
  Forall (fun nt => (0 <= nt.2)%Q) thresholds ->
  exists alerts,
    check metrics thresholds = Py.Ok alerts /\
    sublist (map metric alerts) (map fst thresholds) /\
    forall a, In a alerts <->
      exists name th v,
        In (name, th) thresholds /\ metrics !! name = Some v /\ (th < v)%Q /\
        a = mkAlert name v th (calculate_severity v th).
Proof.
  induction thresholds as [|[name th] rest IH]; intros Hpos; simpl.
  - exists []. split; [done|]. split; [done|]. intros a. split; [done|].
    by intros (? & ? & ? & [] & _).
  - apply Forall_cons in Hpos as [Hth Hrest]. simpl in Hth.
    destruct (IH Hrest) as (alerts & -> & Hsub & Hin).
    destruct (Py.gt (default 0%Q (metrics !! name)) th) eqn:Hgt.
    + apply gt_iff in Hgt. destruct (metrics !! name) as [v|] eqn:Hv; simpl in *.
      * eexists. split; [done|]. simpl. split; [by apply sublist_skip|].
        intros a. rewrite Hin. split.
        -- intros [<-|(n' & th' & v' & Hn & Hrestv)].
           ++ exists name, th, v. by repeat split; auto.
           ++ exists n', th', v'. by split; [right|].
        -- intros (n' & th' & v' & [[= -> ->]|Hn] & Hv' & Hlt & ->).
           ++ left. congruence.
           ++ right. by exists n', th', v'.
      * exfalso. by apply (Qlt_not_le _ _ Hgt).
    + exists alerts. split; [done|]. split; [by apply sublist_cons|].
      intros a. rewrite Hin. split.
      * intros (n' & th' & v' & Hn & Hrestv). exists n', th', v'. by split; [right|].
      * intros (n' & th' & v' & [[= -> ->]|Hn] & Hv' & Hlt & ->).
        -- rewrite Hv' in Hgt. simpl in Hgt.
           apply gt_iff in Hlt. congruence.
        -- by exists n', th', v'.
Qed.

(** X15.  [monitor_performance] never fails on a metric that was not
    collected: it always returns.  It raises an alert for a metric exactly
    when the metric was collected and its value is strictly above the
    threshold of the agent, so a value equal to the threshold and an
    absent metric raise none; the alerts come in the order of the four
    thresholds, at most one per threshold. *)
Theorem monitor_performance_alerts (metrics : gmap string Q) :
  exists alerts,
    monitor_performance calculate_severity metrics = Py.Ok alerts /\
    sublist (map metric alerts)
      ["scrape_duration"; "error_rate"; "memory_usage"; "cpu_usage"]%string /\
    forall a, In a alerts <->
      exists name th v,
        In (name, th) alert_thresholds /\ metrics !! name = Some v /\
        (th < v)%Q /\ a = mkAlert name v th (calculate_severity v th).
Proof.
  apply (check_spec metrics alert_thresholds).
  repeat constructor; done.
Qed.

End performance_properties.

Lemma monitor_performance_alerts_witness :
  PerformanceMonitor.monitor_performance (fun _ _ => "high"%string)
    {["cpu_usage"%string := 0.70%Q; "memory_usage"%string := 0.93%Q]}
  = Py.Ok [PerformanceMonitor.mkAlert "memory_usage" 0.93%Q 0.80%Q "high"].
Proof.
  destruct (monitor_performance_alerts (fun _ _ => "high"%string)
              {["cpu_usage"%string := 0.70%Q; "memory_usage"%string := 0.93%Q]})
    as (alerts & Hrun & _).
  rewrite Hrun. f_equal. vm_compute in Hrun. by injection Hrun as <-.
Defined.

(** ** Agent communication hub: what a broadcast delivers *)

Section hub_properties.
Import CommunicationHub.
Local Open Scope list_scope.
Context {Data Agent : Type}.
Variable now : nat -> Z.

Local Abbreviation Hub := (Hub Data Agent).

Lemma broadcast_to_spec (entries : list (string * list string)) :
  forall (hub : Hub) (event_type : string) (data : Data),
  let hub' := broadcast_to Data Agent now entries hub event_type data in
  map (envelope Data) (message_queue _ _ hub')
  = map (envelope Data) (message_queue _ _ hub)
    ++ map (fun e : string * list string => ("hub"%string, e.1, Event event_type data))
         (List.filter (fun e => existsb (String.eqb event_type) e.2) entries) /\
  message_queue _ _ hub `prefix_of` message_queue _ _ hub' /\
  agents _ _ hub' = agents _ _ hub /\
  event_listeners _ _ hub' = event_listeners _ _ hub.
Proof.
  induction entries as [|[agent_id listeners] rest IH]; intros hub ty d; simpl.
  - rewrite app_nil_r. by repeat split.
  - destruct (existsb (String.eqb ty) listeners); [|by apply IH].
    destruct (IH (send_message Data Agent now hub "hub" agent_id (Event ty d)) ty d)
      as (Hq & Hpre & Ha & Hl).
    simpl in *. rewrite Hq, map_app, <- app_assoc. simpl.
    repeat split; try done.
    etrans; [|exact Hpre]. by apply prefix_app_r.
Qed.

(** X16.  [broadcast_event] puts on the queue one message for every entry
    of [event_listeners] that lists the event type, in the order of the
    entries, each from "hub" to the agent of the entry and carrying the
    event type and the data; it sends nothing to the other agents, leaves
    the messages already queued in place in front of the new ones, and
    changes neither the agents nor the listeners. *)
Theorem broadcast_event_delivers (hub : Hub) (event_type : string) (data : Data) :
  let hub' := broadcast_event Data Agent now hub event_type data in
  map (envelope Data) (message_queue _ _ hub')
  = map (envelope Data) (message_queue _ _ hub)
    ++ map (fun e : string * list string => ("hub"%string, e.1, Event event_type data))
         (List.filter (fun e => existsb (String.eqb event_type) e.2)
            (event_listeners _ _ hub)) /\
  message_queue _ _ hub `prefix_of` message_queue _ _ hub' /\
  agents _ _ hub' = agents _ _ hub /\
  event_listeners _ _ hub' = event_listeners _ _ hub.
Proof. apply broadcast_to_spec. Qed.

Lemma call_without_listeners (hub : Hub) (c : Call Data Agent) :
  event_listeners _ _ hub = [] ->
  event_listeners _ _ (call Data Agent now hub c) = [] /\
  map (envelope Data) (message_queue _ _ (call Data Agent now hub c))
  = map (envelope Data) (message_queue _ _ hub) ++ sends Data Agent [c].
Proof.
  intros Hl. destruct c as [agent_id agent|f t m|ty d]; simpl.
  - by rewrite app_nil_r.
  - by rewrite map_app.
  - unfold broadcast_event. rewrite Hl. simpl. by rewrite app_nil_r.
Qed.

Lemma run_without_listeners (cs : list (Call Data Agent)) : forall hub : Hub,
  event_listeners _ _ hub = [] ->
  event_listeners _ _ (run Data Agent now hub cs) = [] /\
  map (envelope Data) (message_queue _ _ (run Data Agent now hub cs))
  = map (envelope Data) (message_queue _ _ hub) ++ sends Data Agent cs.
Proof.
  induction cs as [|c cs IH]; intros hub Hl; simpl.
  - by rewrite app_nil_r.
  - destruct (call_without_listeners hub c Hl) as [Hl' Hq].
    destruct (IH _ Hl') as [Hl'' Hq']. split; [done|].
    rewrite Hq', Hq, <- app_assoc. f_equal.
    unfold sends. simpl. by rewrite app_nil_r.
Qed.

(** X17.  No call of the hub ever adds a listener.  So on a hub that
    starts empty, whatever agents register and whatever is sent or
    broadcast, [event_listeners] stays empty, a broadcast delivers nothing
    and leaves the hub as it is, and the queue holds exactly the messages
    of the [send_message] calls, in the order of the calls. *)
Theorem hub_broadcast_reaches_nobody (cs : list (Call Data Agent))
    (event_type : string) (data : Data) :
  let hub := run Data Agent now (init Data Agent) cs in
  event_listeners _ _ hub = [] /\
  map (envelope Data) (message_queue _ _ hub) = sends Data Agent cs /\
  broadcast_event Data Agent now hub event_type data = hub.
Proof.
  intros hub.
  destruct (run_without_listeners cs (init Data Agent) eq_refl) as [Hl Hq].
  fold hub in Hl, Hq. split; [done|]. split; [done|].
  unfold broadcast_event. by rewrite Hl.
Qed.

End hub_properties.

(** ** Error recovery agent: from the kind to the strategy *)

Section dispatch_properties.
Import ErrorRecovery RecoveryDispatch.
Context {R : Type}.
Variables network_error_recovery rate_limit_recovery
          parsing_error_recovery database_error_recovery : ErrorState -> R.

Local Abbreviation execute_recovery :=
  (execute_recovery R network_error_recovery rate_limit_recovery
     parsing_error_recovery database_error_recovery).

Lemma classify_error_kind (state : ErrorState) :
  error_type (classify_error state) = kind_of (error state).
Proof. reflexivity. Qed.

(** X18.  After [classify_error], [execute_recovery] never raises: a
    network error, a rate limit, a parsing error and a database error are
    each handed, with the classified state, to the strategy of that name,
    and an error of kind "unknown", and only such an error, gets the
    result "No recovery strategy available" with success false.  On a
    state that has not been classified it raises
    [KeyError('error_type')]. *)
Theorem classified_error_dispatch (state : ErrorState) :
  let classified := classify_error state in
  let kind := error_type classified in
  (exists res,
     execute_recovery classified = Py.Ok (classified, res) /\
     (kind = Some "network_error" ->
      res = Recovered (network_error_recovery classified)) /\
     (kind = Some "rate_limit" ->
      res = Recovered (rate_limit_recovery classified)) /\
     (kind = Some "parsing_error" ->
      res = Recovered (parsing_error_recovery classified)) /\
     (kind = Some "database_error" ->
      res = Recovered (database_error_recovery classified)) /\
     (kind = Some "unknown" <->
      res = NotRecovered false "No recovery strategy available")) /\
  execute_recovery (mkErrorState (error state) None)
  = Py.Raise (Py.KeyError "error_type").
Proof.
  intros classified kind. split; [|done].
  pose proof (kind_of_taxonomy (error state)) as Hkind.
  rewrite <- classify_error_kind in Hkind. fold classified kind in Hkind.
  unfold RecoveryDispatch.execute_recovery. fold kind.
  simpl in Hkind.
  destruct Hkind as [<-|[<-|[<-|[<-|[<-|[]]]]]]; simpl;
    eexists; (split; [reflexivity|]); repeat split; done.
Qed.

End dispatch_properties.

Lemma classified_error_dispatch_witness :
  RecoveryDispatch.execute_recovery nat (fun _ => 1) (fun _ => 2) (fun _ => 3)
    (fun _ => 4)
    (ErrorRecovery.classify_error
       (ErrorRecovery.mkErrorState ErrorRecovery.failure_b None))
  = Py.Ok (ErrorRecovery.classify_error
             (ErrorRecovery.mkErrorState ErrorRecovery.failure_b None),
           RecoveryDispatch.NotRecovered false "No recovery strategy available").
Proof.
  destruct (proj1 (classified_error_dispatch (fun _ => 1) (fun _ => 2)
                     (fun _ => 3) (fun _ => 4)
                     (ErrorRecovery.mkErrorState ErrorRecovery.failure_b None)))
    as (res & Hrun & _ & _ & _ & _ & Hunknown).
  rewrite Hrun. f_equal. f_equal. apply Hunknown. reflexivity.
Defined.

(** ** Job monitor: the duration shown *)

Section duration_properties.
Import JobMonitorView.
Local Open Scope Z_scope.

Lemma whole_seconds (diff : Z) :
  0 <= diff -> diff / 60000 * 60 + Z.rem diff 60000 / 1000 = diff / 1000.
Proof.
  intros Hpos. rewrite Z.rem_mod_nonneg by lia.
  pose proof (Z.div_mod diff 60000 ltac:(lia)).
  pose proof (Z.mod_pos_bound diff 60000 ltac:(lia)).
  pose proof (Z.div_mod (diff mod 60000) 1000 ltac:(lia)).
  pose proof (Z.mod_pos_bound (diff mod 60000) 1000 ltac:(lia)).
  apply Z.div_unique with (r := (diff mod 60000) mod 1000); lia.
Qed.

Lemma whole_seconds_before (diff : Z) :
  diff < 0 -> Z.rem diff 60000 <> 0 ->
  diff / 60000 * 60 + Z.rem diff 60000 / 1000 = diff / 1000 - 60.
Proof.
  intros Hneg Hrem.
  pose proof (Z.rem_bound_pos_neg diff 60000 ltac:(lia) ltac:(lia)).
  pose proof (Z.quot_rem' diff 60000).
  pose proof (Z.div_mod diff 60000 ltac:(lia)).
  pose proof (Z.mod_pos_bound diff 60000 ltac:(lia)).
  pose proof (Z.div_mod (Z.rem diff 60000) 1000 ltac:(lia)).
  pose proof (Z.mod_pos_bound (Z.rem diff 60000) 1000 ltac:(lia)).
  assert (E : diff / 60000 * 60 + Z.rem diff 60000 / 1000 + 60 = diff / 1000)
    by (apply Z.div_unique with (r := (Z.rem diff 60000) mod 1000); lia).
  lia.
Qed.

(** X19.  For an end time at or after the start, [formatDuration] shows
    whole minutes and seconds that add up to the whole seconds elapsed,
    the seconds between 0 and 59.  For an end time before the start both
    parts are at most 0, the minutes at most -1, and unless the difference
    is a whole number of minutes the two parts add up to a minute more
    than the time that is missing: one millisecond short shows as
    "-1m -1s". *)
Theorem formatDuration_parts (now startTime : Z) (endTime : option Z) :
  let diff := match endTime with Some e => e | None => now end - startTime in
  formatDuration now startTime endTime
  = pretty (minutes diff) +:+ "m " +:+ pretty (seconds diff) +:+ "s" /\
  (0 <= diff ->
   0 <= minutes diff /\ 0 <= seconds diff < 60 /\
   minutes diff * 60 + seconds diff = diff / 1000) /\
  (diff < 0 ->
   minutes diff <= -1 /\ -60 <= seconds diff <= 0 /\
   (Z.rem diff 60000 <> 0 ->
    minutes diff * 60 + seconds diff = diff / 1000 - 60)).
Proof.
  intros diff. split; [done|]. unfold minutes, seconds. split.
  - intros Hpos. split; [|split; [|by apply whole_seconds]];
      Z.to_euclidean_division_equations; lia.
  - intros Hneg. split; [|split; [|by apply whole_seconds_before]];
      Z.to_euclidean_division_equations; lia.
Qed.

Lemma formatDuration_parts_witness :
  minutes (-1) <= -1 /\ -60 <= seconds (-1) <= 0 /\
  formatDuration 0 1 (Some 0) = "-1m -1s"%string /\
  formatDuration 125000 0 None = "2m 5s"%string.
Proof.
  destruct (proj2 (proj2 (formatDuration_parts 0 1 (Some 0))) ltac:(lia))
    as (Hm & Hs & _).
  split; [exact Hm|]. split; [exact Hs|]. split; reflexivity.
Defined.

End duration_properties.

(** ** Retry with backoff: how long it waits *)

Section retry_timing_properties.
Import Retry RetryTiming.
Local Open Scope list_scope.
Context {A : Type}.

Lemma power_step (a : nat) :
  (inject_Z (2 ^ Z.of_nat (S a)) == 2 * inject_Z (2 ^ Z.of_nat a))%Q.
Proof.
  rewrite Nat2Z.inj_succ, Z.pow_succ_r by lia. by rewrite inject_Z_mult.
Qed.

Lemma power_at_least_one (a : nat) : (1 <= inject_Z (2 ^ Z.of_nat a))%Q.
Proof.
  change 1%Q with (inject_Z 1). rewrite <- Zle_Qle.
  pose proof (Z.pow_pos_nonneg 2 (Z.of_nat a)). lia.
Qed.

Lemma count_step (k : nat) :
  (inject_Z (Z.of_nat (S k)) == inject_Z (Z.of_nat k) + 1)%Q.
Proof. rewrite Nat2Z.inj_succ, <- Z.add_1_r. by rewrite inject_Z_plus. Qed.

Lemma total_app (l1 l2 : list Q) : (total (l1 ++ l2) == total l1 + total l2)%Q.
Proof.
  induction l1 as [|x l1 IH]; simpl; [lra|]. rewrite IH. lra.
Qed.

Lemma waits_step (draw : nat -> Q) (k : nat) :
  waits draw (S k) = waits draw k ++ [wait_time k (draw k)].
Proof. unfold waits. by rewrite seq_S, map_app. Qed.

Lemma total_waits (draw : nat -> Q) (k : nat) :
  (forall a, 0 <= draw a <= 1)%Q ->
  (inject_Z (2 ^ Z.of_nat k) - 1 <= total (waits draw k)
   <= inject_Z (2 ^ Z.of_nat k) - 1 + inject_Z (Z.of_nat k))%Q.
Proof.
  intros Hdraw. induction k as [|k IH].
  - simpl. split; by vm_compute.
  - rewrite waits_step, total_app, power_step, count_step. simpl.
    unfold wait_time. specialize (Hdraw k). lra.
Qed.

(** X20.  With a jitter between 0 and 1, the wait after attempt [a] lies
    between 2^a and 2^a + 1 seconds and is never longer than the wait
    after the next attempt; and a run that gives up after [max_retries]
    rate-limited attempts has slept between 2^max_retries - 1 and
    2^max_retries - 1 + max_retries seconds in all (7 to 10 seconds with
    the default of 3), the last wait being slept before the exception is
    raised. *)
Theorem backoff_waits_bounded (func : nat -> Outcome A) (draw : nat -> Q)
    (max_retries : nat) :
  (forall a, 0 <= draw a <= 1)%Q ->
  (forall a, inject_Z (2 ^ Z.of_nat a) <= wait_time a (draw a)
             <= inject_Z (2 ^ Z.of_nat a) + 1)%Q /\
  (forall a, wait_time a (draw a) <= wait_time (S a) (draw (S a)))%Q /\
  ((forall i, i < max_retries -> func i = RateLimitError) ->
   length (retry_with_backoff func draw max_retries).2 = max_retries /\
   (inject_Z (2 ^ Z.of_nat max_retries) - 1
    <= total (retry_with_backoff func draw max_retries).2
    <= inject_Z (2 ^ Z.of_nat max_retries) - 1
       + inject_Z (Z.of_nat max_retries))%Q).
Proof.
  intros Hdraw. split; [|split].
  - intros a. unfold wait_time. specialize (Hdraw a). lra.
  - intros a. unfold wait_time. rewrite power_step.
    pose proof (power_at_least_one a). pose proof (Hdraw a).
    pose proof (Hdraw (S a)). lra.
  - intros Hlim. rewrite (retry_all_limited func draw max_retries Hlim). simpl.
    split; [|by apply total_waits].
    unfold waits. by rewrite length_map, length_seq.
Qed.

End retry_timing_properties.

Lemma backoff_waits_bounded_witness :
  (7 <= RetryTiming.total
          (Retry.retry_with_backoff Retry.limited_thrice (fun _ => 1 # 2) 3).2
   <= 10)%Q.
Proof.
  refine (proj2 (proj2 (proj2 (backoff_waits_bounded Retry.limited_thrice
                                 (fun _ => 1 # 2) 3 _)) _)).
  - intros a. split; by vm_compute.
  - intros i Hi. unfold Retry.limited_thrice.
    destruct (Nat.ltb_spec i 3) as [_|Hge]; [reflexivity | lia].
Defined.

(** ** The stores table: running a migration again *)

Section stores_table_properties.
Import StoresTable.
Local Open Scope list_scope.

Lemma has_slug_app (s : string) (t1 t2 : list StoreRow) :
  has_slug s (t1 ++ t2) = has_slug s t1 || has_slug s t2.
Proof. unfold has_slug. apply existsb_app. Qed.

Lemma has_slug_elem (s : string) (table : list StoreRow) :
  has_slug s table = true <-> s ∈ slug <$> table.
Proof.
  unfold has_slug. rewrite existsb_exists, list_elem_of_fmap. split.
  - intros (row & Hin & Heq%String.eqb_eq). exists row.
    split; [done|]. by apply list_elem_of_In.
  - intros (row & -> & Hin). exists row. split; [by apply list_elem_of_In|].
    apply String.eqb_refl.
Qed.

Lemma length_list_ascii_of_string (s : string) :
  length (list_ascii_of_string s) = String.length s.
Proof. induction s as [|c s IH]; simpl; [done|]. by rewrite IH. Qed.

Lemma stored_fits (row : StoreRow) : fits row -> stored row = Some row.
Proof.
  intros [Hname Hslug]. unfold stored, varchar.
  rewrite !length_list_ascii_of_string.
  destruct (Nat.leb_spec (String.length (name row)) 100); [|lia].
  destruct (Nat.leb_spec (String.length (slug row)) 50); [|lia].
  by destruct row.
Qed.

(** A value that is too long for its column and does not end in a space
    is an error. *)
Lemma varchar_too_long (n : nat) (value : string) :
  n < String.length value ->
  last (list_ascii_of_string value) <> Some Text.space ->
  varchar n value = None.
Proof.
  intros Hlong Hlast. unfold varchar.
  rewrite length_list_ascii_of_string.
  destruct (Nat.leb_spec (String.length value) n); [lia|].
  destruct (forallb _ _) eqn:Hall; [|done].
  destruct Hlast.
  rewrite <- (take_drop n (list_ascii_of_string value)).
  rewrite forallb_forall in Hall.
  destruct (last (drop n (list_ascii_of_string value))) as [c|] eqn:Hc.
  - rewrite last_app, Hc.
    apply last_Some_elem_of, list_elem_of_In, Hall, Ascii.eqb_eq in Hc.
    by rewrite Hc.
  - apply last_None in Hc. apply (f_equal length) in Hc.
    rewrite length_drop, length_list_ascii_of_string in Hc. simpl in Hc. lia.
Qed.

Lemma stored_too_long (row : StoreRow) :
  (100 < String.length (name row) /\
   last (list_ascii_of_string (name row)) <> Some Text.space) \/
  (50 < String.length (slug row) /\
   last (list_ascii_of_string (slug row)) <> Some Text.space) ->
  stored row = None.
Proof.
  unfold stored. intros [[Hlong Hlast]|[Hlong Hlast]].
  - by rewrite (varchar_too_long 100 (name row)).
  - rewrite (varchar_too_long 50 (slug row)) by done.
    by destruct (varchar 100 (name row)).
Qed.

Lemma insert_do_nothing_spec (rows : list StoreRow) : forall table,
  Forall fits rows ->
  NoDup (slug <$> table) ->
  exists table',
    insert_do_nothing rows table = Some table' /\
    NoDup (slug <$> table') /\
    table `prefix_of` table' /\
    (forall row, In row rows -> has_slug (slug row) table' = true).
Proof.
  induction rows as [|row rows IH]; intros table Hfit Hnd; simpl.
  - exists table. by repeat split.
  - apply Forall_cons in Hfit as [Hrow Hfit]. rewrite (stored_fits row Hrow).
    destruct (has_slug (slug row) table) eqn:Hslug.
    + destruct (IH table Hfit Hnd) as (table' & Hrun & Hnd' & Hpre & Hin).
      exists table'. repeat split; try done.
      intros r [<-|Hr]; [|by apply Hin].
      apply has_slug_elem. destruct Hpre as [more ->].
      rewrite fmap_app. apply elem_of_app. left. by apply has_slug_elem.
    + destruct (IH (table ++ [row]) Hfit) as (table' & Hrun & Hnd' & Hpre & Hin).
      { rewrite fmap_app. apply NoDup_app. split; [done|]. split.
        - intros s Hs [->|[]%elem_of_nil]%elem_of_cons.
          apply has_slug_elem in Hs. congruence.
        - apply NoDup_singleton. }
      exists table'. repeat split; try done.
      * etrans; [|exact Hpre]. by apply prefix_app_r.
      * intros r [<-|Hr]; [|by apply Hin].
        apply has_slug_elem. destruct Hpre as [more ->].
        rewrite !fmap_app. apply elem_of_app. left. apply elem_of_app. right.
        by apply list_elem_of_singleton.
Qed.

Lemma insert_do_nothing_present (rows : list StoreRow) : forall table,
  Forall fits rows ->
  (forall row, In row rows -> has_slug (slug row) table = true) ->
  insert_do_nothing rows table = Some table.
Proof.
  induction rows as [|row rows IH]; intros table Hfit Hall; simpl; [done|].
  apply Forall_cons in Hfit as [Hrow Hfit]. rewrite (stored_fits row Hrow).
  rewrite (Hall row) by by left. apply IH; [done|].
  intros r Hr. apply Hall. by right.
Qed.

(** Whatever the rows, a statement that goes through keeps the slugs
    distinct and the rows of the table in place. *)
Lemma insert_do_nothing_keeps (rows : list StoreRow) : forall table table',
  NoDup (slug <$> table) ->
  insert_do_nothing rows table = Some table' ->
  NoDup (slug <$> table') /\ table `prefix_of` table'.
Proof.
  induction rows as [|row rows IH]; intros table table' Hnd; simpl.
  - by intros [= <-].
  - destruct (stored row) as [row'|]; [|done].
    destruct (has_slug (slug row') table) eqn:Hslug; [by apply IH|].
    intros Hrun. destruct (IH (table ++ [row']) table') as [Hnd' Hpre]; try done.
    + rewrite fmap_app. apply NoDup_app. split; [done|]. split.
      * intros s Hs [->|[]%elem_of_nil]%elem_of_cons.
        apply has_slug_elem in Hs. congruence.
      * apply NoDup_singleton.
    + split; [done|]. etrans; [|exact Hpre]. by apply prefix_app_r.
Qed.

Lemma statement_fails (rows : list StoreRow) : forall table row,
  In row rows -> stored row = None ->
  insert_do_nothing rows table = None /\ insert rows table = None.
Proof.
  induction rows as [|r rows IH]; intros table row Hin Hrow; simpl; [done|].
  destruct Hin as [->|Hin]; [by rewrite Hrow|].
  destruct (stored r) as [r'|]; [|done].
  destruct (has_slug (slug r') table); split; try done;
    by apply (IH _ row).
Qed.

(** X21.  Take a table with distinct slugs and rows whose names and slugs
    are ASCII text.  When the rows fit their columns (a name of at most 100
    characters, a slug of at most 50), an insert of them with
    [ON CONFLICT (slug) DO NOTHING], as the migrations that add Kruidvat
    and Etos use, goes through: it keeps the slugs of the table distinct,
    leaves every row that was there in place, and makes every slug it
    names present; run a second time it changes nothing, while the plain
    insert of the initial schema, run on a table that already holds one of
    its slugs, fails.  When a name or a slug is too long for its column
    and does not end in a space, both kinds of insert fail as a whole; and
    whenever the insert with [DO NOTHING] goes through, the slugs stay
    distinct and the rows of the table in place. *)
Theorem add_store_runs_again (rows table : list StoreRow) :
  NoDup (slug <$> table) ->
  Forall (fun row => Text.ascii_text (name row) /\ Text.ascii_text (slug row))
         rows ->
  (Forall fits rows ->
   exists table',
     insert_do_nothing rows table = Some table' /\
     NoDup (slug <$> table') /\
     table `prefix_of` table' /\
     (forall row, In row rows -> has_slug (slug row) table' = true) /\
     insert_do_nothing rows table' = Some table' /\
     (rows <> [] -> insert rows table' = None)) /\
  (forall row, In row rows ->
     (100 < String.length (name row) /\
      last (list_ascii_of_string (name row)) <> Some Text.space) \/
     (50 < String.length (slug row) /\
      last (list_ascii_of_string (slug row)) <> Some Text.space) ->
     insert_do_nothing rows table = None /\ insert rows table = None) /\
  (forall table', insert_do_nothing rows table = Some table' ->
     NoDup (slug <$> table') /\ table `prefix_of` table').
Proof.
  intros Hnd _. split; [|split].
  - intros Hfit.
    destruct (insert_do_nothing_spec rows table Hfit Hnd)
      as (table' & Hrun & Hnd' & Hpre & Hin).
    exists table'. repeat split; try done.
    + by apply insert_do_nothing_present.
    + destruct rows as [|row rows]; [done|]. intros _. simpl.
      apply Forall_cons in Hfit as [Hrow _]. rewrite (stored_fits row Hrow).
      by rewrite (Hin row) by by left.
  - intros row Hin Hrow%stored_too_long.
    by apply (statement_fails rows table row).
  - intros table'. by apply insert_do_nothing_keeps.
Qed.

Lemma add_store_runs_again_witness :
  insert initial_stores [] = Some initial_stores /\
  (map (fun row => (name row, slug row)) <$> migrated) = Some DataQuality.stores /\
  (exists table, migrated = Some table /\ add_etos table = Some table /\
                 insert initial_stores table = None).
Proof.
  split; [reflexivity|]. split; [reflexivity|].
  assert (Hnd : NoDup (slug <$> initial_stores ++ [kruidvat])).
  { vm_compute. repeat constructor; rewrite ?elem_of_cons, ?elem_of_nil;
      intros H; repeat destruct H as [H|H]; discriminate || done. }
  destruct (add_store_runs_again [etos] (initial_stores ++ [kruidvat]) Hnd)
    as [Hfits _].
  { repeat constructor. }
  destruct Hfits as (table & Hrun & _ & _ & _ & Hagain & _).
  { repeat constructor; simpl; lia. }
  exists table. split; [exact Hrun|]. split; [exact Hagain|].
  injection Hrun as <-. reflexivity.
Defined.

End stores_table_properties.

(** ** Scrapers page: the id sent for a store *)

Section agent_id_properties.
Import AgentId.
Local Open Scope list_scope.

Lemma spaces_lower (s : list ascii) : spaces (Text.lower_chars s) = spaces s.
Proof.
  unfold spaces. induction s as [|c s IH]; simpl; [done|].
  rewrite lower_char_eqb_space. destruct (Ascii.eqb c Text.space); simpl; lia.
Qed.

Lemma replace_first_space_spec (s : list ascii) :
  length (replace_first_space s) = length s /\
  (Forall (fun ch => Text.is_upper ch = false) s ->
   Forall (fun ch => Text.is_upper ch = false) (replace_first_space s)).
Proof.
  induction s as [|c s (Hlen & Hup)]; simpl; [done|].
  destruct (Ascii.eqb_spec c Text.space) as [->|Hne]; simpl.
  - split; [done|]. intros [_ Hs]%Forall_cons. by constructor.
  - split; [by rewrite Hlen|].
    intros [Hc Hs]%Forall_cons. constructor; auto.
Qed.

Lemma replace_first_space_none (s : list ascii) :
  ~ In Text.space s -> replace_first_space s = s.
Proof.
  induction s as [|c s IH]; simpl; [done|]. intros Hnot.
  destruct (Ascii.eqb_spec c Text.space) as [->|Hne]; [tauto|].
  rewrite IH; [done|tauto].
Qed.

Lemma replace_first_space_first (before rest : list ascii) :
  ~ In Text.space before ->
  replace_first_space (before ++ Text.space :: rest)
  = before ++ "_"%char :: rest.
Proof.
  induction before as [|c before IH]; simpl; [done|]. intros Hnot.
  destruct (Ascii.eqb_spec c Text.space) as [->|Hne]; [tauto|].
  rewrite IH; [done|tauto].
Qed.

Lemma lower_chars_space (s : list ascii) :
  In Text.space (Text.lower_chars s) <-> In Text.space s.
Proof.
  induction s as [|c s IH]; simpl; [done|]. rewrite IH.
  pose proof (lower_char_eqb_space c) as Hc.
  destruct (Ascii.eqb_spec c Text.space) as [->|Hne].
  - apply Ascii.eqb_eq in Hc. rewrite Hc. tauto.
  - apply Ascii.eqb_neq in Hc. split; (intros [H|H]; [congruence|by right]).
Qed.

Lemma spaces_app (s t : list ascii) : spaces (s ++ t) = spaces s + spaces t.
Proof. unfold spaces. by rewrite List.filter_app, length_app. Qed.

Lemma spaces_none (s : list ascii) : ~ In Text.space s -> spaces s = 0.
Proof.
  unfold spaces. induction s as [|c s IH]; simpl; [done|]. intros Hnot.
  destruct (Ascii.eqb_spec c Text.space) as [->|Hne]; [tauto|].
  apply IH. tauto.
Qed.

(** X22.  For a store name of ASCII text, the id the page sends is the
    name in lower case with its first space, when it has one, turned into
    an underscore and the spaces after it kept: it is as long as the name
    and has no upper-case letter; a name without a space is only
    lower-cased, and a name with a space gets an id with one space less.
    For each of the five store cards of the page it is the slug of the
    store of that name in the stores table after the migrations. *)
Theorem agent_id_shape (store_name : list ascii) :
  Text.ascii_chars store_name ->
  length (agent_id_chars store_name) = length store_name /\
  Forall (fun ch => Text.is_upper ch = false) (agent_id_chars store_name) /\
  (~ In Text.space store_name ->
   agent_id_chars store_name = Text.lower_chars store_name) /\
  (forall before rest,
     store_name = before ++ Text.space :: rest -> ~ In Text.space before ->
     agent_id_chars store_name
     = Text.lower_chars before ++ "_"%char :: Text.lower_chars rest /\
     S (spaces (agent_id_chars store_name)) = spaces store_name) /\
  exists table,
    StoresTable.migrated = Some table /\
    Forall (fun card =>
              exists row,
                In row table /\
                StoresTable.name row = card /\
                StoresTable.slug row = agent_id card) cards.
Proof.
  intros _. unfold agent_id_chars.
  destruct (replace_first_space_spec (Text.lower_chars store_name))
    as (Hlen & Hup).
  split; [rewrite Hlen; apply length_map|]. split; [apply Hup, not_upper_lower|].
  split; [|split].
  - intros Hnone. apply replace_first_space_none. by rewrite lower_chars_space.
  - intros before rest -> Hnone.
    assert (Hid : replace_first_space (Text.lower_chars (before ++ Text.space :: rest))
                  = Text.lower_chars before ++ "_"%char :: Text.lower_chars rest).
    { unfold Text.lower_chars. rewrite map_app. simpl.
      apply (replace_first_space_first (map Text.lower_char before)).
      fold (Text.lower_chars before). by rewrite lower_chars_space. }
    split; [done|]. rewrite Hid.
    rewrite !spaces_app, !spaces_lower, (spaces_none before Hnone).
    change (spaces ("_"%char :: Text.lower_chars rest))
      with (spaces (Text.lower_chars rest)).
    change (spaces (Text.space :: rest)) with (S (spaces rest)).
    by rewrite spaces_lower.
  - eexists. split; [reflexivity|].
    rewrite List.Forall_forall. intros card Hcard. simpl in Hcard.
    repeat destruct Hcard as [<-|Hcard]; try done;
      match goal with
      | |- exists row, In row ?t /\ StoresTable.name row = ?c /\ _ =>
          let r := eval vm_compute in
                     (List.find (fun row => String.eqb (StoresTable.name row) c) t) in
          match r with
          | Some ?row =>
              exists row; split;
                [vm_compute; repeat first [left; reflexivity | right]
                | split; reflexivity]
          end
      end.
Qed.

Lemma agent_id_shape_witness :
  agent_id "Albert Heijn" = "albert_heijn"%string /\
  agent_id "Mega Super Markt" = "mega_super markt"%string /\
  S (spaces (agent_id_chars (list_ascii_of_string "Mega Super Markt"))) = 2.
Proof.
  split; [reflexivity|]. split; [reflexivity|].
  refine (proj2 (proj1 (proj2 (proj2 (proj2
            (agent_id_shape (list_ascii_of_string "Mega Super Markt") _))))
            (list_ascii_of_string "Mega") (list_ascii_of_string "Super Markt")
            eq_refl _)).
  - unfold Text.ascii_chars. simpl. repeat constructor.
  - simpl. intros H. repeat destruct H as [H|H]; discriminate || done.
Defined.

End agent_id_properties.

(** ** Job monitor: the number of active jobs *)

Section active_jobs_properties.
Import JobMonitor JobMonitorView.
Local Open Scope list_scope.

Local Abbreviation others :=
  (fun (jobId : string) (jobs : list ScrapingJob) =>
     List.filter (fun job => negb (String.eqb (id job) jobId)) jobs).

Lemma active_jobs_cons (job : ScrapingJob) (jobs : list ScrapingJob) :
  active_jobs (job :: jobs)
  = (match status job with running => 1 | _ => 0 end) + active_jobs jobs.
Proof. unfold active_jobs. simpl. by destruct (status job). Qed.

Lemma active_jobs_others_le (jobId : string) (jobs : list ScrapingJob) :
  active_jobs (others jobId jobs) <= active_jobs jobs.
Proof.
  induction jobs as [|job jobs IH]; simpl; [done|].
  rewrite active_jobs_cons.
  destruct (String.eqb (id job) jobId); simpl; [lia|].
  rewrite active_jobs_cons. lia.
Qed.

(** X23.  The count of active jobs shown above the list counts the running
    jobs.  After a stop, a pause or a retry of a job it is the number of
    running jobs with another id, so these actions never raise it; after a
    resume it is that number plus the number of jobs with the given
    id. *)
Theorem active_jobs_after_action (prev : list ScrapingJob) (jobId : string) :
  (forall action, action <> resume ->
     active_jobs (handleJobAction prev jobId action)
     = active_jobs (others jobId prev) /\
     active_jobs (handleJobAction prev jobId action) <= active_jobs prev) /\
  active_jobs (handleJobAction prev jobId resume)
  = active_jobs (others jobId prev)
    + length (List.filter (fun job => String.eqb (id job) jobId) prev).
Proof.
  split.
  - intros action Hne.
    assert (Heq : active_jobs (handleJobAction prev jobId action)
                  = active_jobs (others jobId prev)).
    { induction prev as [|job prev IH]; [done|]. simpl.
      rewrite active_jobs_cons, IH.
      destruct (String.eqb (id job) jobId); simpl.
      - by destruct action.
      - by rewrite active_jobs_cons. }
    split; [done|]. rewrite Heq. apply active_jobs_others_le.
  - induction prev as [|job prev IH]; [done|]. simpl.
    rewrite active_jobs_cons, IH.
    destruct (String.eqb (id job) jobId); simpl.
    + lia.
    + rewrite active_jobs_cons. lia.
Qed.

Lemma active_jobs_after_action_witness :
  active_jobs (handleJobAction [with_status failed_job running] "job-1" stop) = 0.
Proof.
  exact (proj1 (proj1 (active_jobs_after_action
                         [with_status failed_job running] "job-1") stop
                  ltac:(discriminate))).
Defined.

End active_jobs_properties.

(** ** Name normalization: normalizing a normalized name *)

Section renormalization_properties.
Import DataQuality.
Local Open Scope list_scope.

Local Abbreviation no_space := (Forall (fun ch => Text.is_space ch = false)).

Lemma split_from_nonempty (s : list ascii) : forall word,
  word <> [] -> split_from word s <> [].
Proof.
  induction s as [|c rest IH]; intros word Hne; simpl.
  - by destruct word.
  - destruct (Text.is_space c); [by destruct word|]. by apply IH.
Qed.

Lemma join_cons (w : list ascii) (ws : list (list ascii)) :
  ws <> [] -> join (w :: ws) = w ++ Text.space :: join ws.
Proof. by destruct ws. Qed.

(** Splitting a tidy string and joining the words gives it back. *)
Lemma join_split_from (s : list ascii) : forall word,
  tidy_from (match word with [] => true | _ => false end) s = true ->
  join (split_from word s) = rev word ++ s.
Proof.
  induction s as [|c rest IH]; intros word Ht; simpl in *.
  - destruct word; [done|]. simpl. by rewrite app_nil_r.
  - destruct (Text.is_space c) eqn:Hc.
    + apply andb_true_iff in Ht as [[Heq Hw]%andb_true_iff Hrest].
      apply Ascii.eqb_eq in Heq as ->.
      destruct word as [|a word]; [done|].
      assert (Hne : split_from [] rest <> []).
      { destruct rest as [|c2 rest']; [done|]. simpl in *.
        destruct (Text.is_space c2); [by rewrite andb_false_r in Hrest|].
        by apply split_from_nonempty. }
      rewrite join_cons by done. by rewrite (IH [] Hrest).
    + rewrite (IH (c :: word) Ht). simpl. by rewrite <- app_assoc.
Qed.

Lemma join_split_tidy (s : list ascii) : tidy s = true -> join (split s) = s.
Proof.
  destruct s as [|c s]; [done|]. intros Ht. by apply (join_split_from _ []).
Qed.

Lemma lower_char_lower (c : ascii) :
  Text.is_upper c = false -> Text.lower_char c = c.
Proof. destruct c as [[] [] [] [] [] [] [] []]; vm_compute; congruence. Qed.

Lemma lower_chars_lower (s : list ascii) :
  Forall (fun ch => Text.is_upper ch = false) s -> Text.lower_chars s = s.
Proof.
  induction s as [|c s IH]; intros Hs; simpl; [done|].
  apply Forall_cons in Hs as [Hc Hs]. rewrite IH by done. f_equal.
  by apply lower_char_lower.
Qed.

Lemma normalize_chars_shape (raw : list ascii) :
  tidy (normalize_chars raw) = true /\
  Forall (fun ch => Text.is_upper ch = false) (normalize_chars raw).
Proof.
  unfold normalize_chars.
  pose proof (tidy_canonical raw) as Hc.
  pose proof (not_upper_lower (join (split raw))) as Hlow.
  destruct (sub_prefix_cases prefixes _ prefixes_words Hc)
    as [->|(p & _ & Heq & Ht)]; [done|].
  split; [done|]. rewrite Heq in Hlow.
  apply Forall_app in Hlow as [_ Hlow]. by apply Forall_cons in Hlow as [_ ?].
Qed.

(** X24.  For a name of ASCII text: collapsing and lower-casing the name
    once it has been normalized changes nothing, so normalizing it again
    can only take off one more prefix word: the result is the normalized
    name itself unless that name starts with "ah", "jumbo" or "dirk"
    followed by a space, in which case that word and the space are
    removed. *)
Theorem normalize_again (raw : list ascii) :
  Text.ascii_chars raw ->
  let r := normalize_chars raw in
  Text.lower_chars (join (split r)) = r /\
  normalize_chars r = sub_prefix prefixes r /\
  ((forall p rest, In p prefixes -> r <> p ++ Text.space :: rest) ->
   normalize_chars r = r) /\
  (forall p rest, In p prefixes -> r = p ++ Text.space :: rest ->
   normalize_chars r = rest).
Proof.
  intros _ r. destruct (normalize_chars_shape raw) as [Ht Hlow]. fold r in Ht, Hlow.
  assert (Hsame : Text.lower_chars (join (split r)) = r).
  { rewrite join_split_tidy by done. by apply lower_chars_lower. }
  assert (Hnorm : normalize_chars r = sub_prefix prefixes r).
  { unfold normalize_chars at 1. by rewrite Hsame. }
  split; [done|]. split; [done|]. rewrite Hnorm. split.
  - intros Hnone.
    destruct (sub_prefix_cases prefixes r prefixes_words Ht)
      as [->|(p & Hp & Heq & _)]; [done|].
    by destruct (Hnone p (sub_prefix prefixes r) Hp).
  - intros p rest Hp Heq. rewrite Heq. apply sub_prefix_strips; [done|].
    by rewrite <- Heq.
Qed.

Lemma normalize_again_witness :
  normalize_product_name "AH  ah Melk" = "ah melk"%string /\
  normalize_product_name "ah melk" = "melk"%string /\
  normalize_chars (normalize_chars (list_ascii_of_string "Jumbo Cola"))
  = normalize_chars (list_ascii_of_string "Jumbo Cola").
Proof.
  split; [reflexivity|]. split; [reflexivity|].
  refine (proj1 (proj2 (proj2
            (normalize_again (list_ascii_of_string "Jumbo Cola") _))) _).
  - unfold Text.ascii_chars. simpl. repeat constructor.
  - intros p rest [<-|[<-|[<-|[]]]]; discriminate.
Defined.

End renormalization_properties.
